(** * CineMatch precomputation: a shallow embedding of [precompute_data.py]

    The script builds one feature document per movie, turns the documents
    into TF-IDF rows, and for each movie keeps the [TOP_N_SIMILAR]
    best-scoring other movies, computing cosine similarities one batch of
    rows at a time.

    Layout of this development:
    - [Py]       : Python exceptions, indexing, slicing and [range];
    - [PyFloat]  : what the selector needs from float scores (order and
                   [round(x, 4)]), with an exact rational and a real
                   instance;
    - [Numpy]    : the contract of [np.argpartition] / [np.argsort], with
                   a reference implementation;
    - [top_similar], [similarity_loop] : lines 134-155 of the script;
    - [Features] : [create_content_features], lines 74-101;
    - [Tfidf]    : [TfidfVectorizer(stop_words="english").fit_transform]
                   and [cosine_similarity] over the reals;
    - theorems. *)

From Stdlib Require Import Ascii String.
From Stdlib Require Import List Arith ZArith Bool Lia Permutation Sorted.
From Stdlib Require Import QArith Qround Lqa.
From Stdlib Require Import Reals Lra.
Import ListNotations.

Close Scope R_scope.
Close Scope Q_scope.
Open Scope nat_scope.

Set Implicit Arguments.

(** ** Python values and control *)

Module Py.

(** The two exceptions the modelled lines can raise. *)
Inductive exn : Type :=
| ValueError
| IndexError.

Inductive result (A : Type) : Type :=
| Ok (a : A)
| Raise (e : exn).

Arguments Ok {A} a.
Arguments Raise {A} e.

Definition bind {A B : Type} (m : result A) (k : A -> result B) : result B :=
  match m with
  | Ok a => k a
  | Raise e => Raise e
  end.

(** [l[i]] for a non-negative [i]. *)
Definition index {A : Type} (l : list A) (i : nat) : result A :=
  match nth_error l i with
  | Some x => Ok x
  | None => Raise IndexError
  end.

(** [l[i] = v] for a non-negative [i]. *)
Fixpoint setitem {A : Type} (l : list A) (i : nat) (v : A) : result (list A) :=
  match l, i with
  | [], _ => Raise IndexError
  | _ :: t, O => Ok (v :: t)
  | x :: t, S j =>
      match setitem t j v with
      | Ok t' => Ok (x :: t')
      | Raise e => Raise e
      end
  end.

(** Running a fallible function over a list, left to right. *)
Fixpoint mapM {A B : Type} (f : A -> result B) (l : list A) : result (list B) :=
  match l with
  | [] => Ok []
  | x :: t =>
      match f x with
      | Ok y =>
          match mapM f t with
          | Ok ys => Ok (y :: ys)
          | Raise e => Raise e
          end
      | Raise e => Raise e
      end
  end.

(** A [for] loop threading a state. *)
Fixpoint foldM {A S : Type} (f : S -> A -> result S) (l : list A) (s : S) : result S :=
  match l with
  | [] => Ok s
  | x :: t =>
      match f s x with
      | Ok s' => foldM f t s'
      | Raise e => Raise e
      end
  end.

(** Integer-array indexing [v[idx]]: every index is bounds-checked. *)
Definition take {A : Type} (v : list A) (idx : list nat) : result (list A) :=
  mapM (index v) idx.

(** [l[-n:]] for [n > 0]: the last [n] elements, or all of [l] when it
    is shorter. *)
Definition slice_last {A : Type} (n : nat) (l : list A) : list A :=
  skipn (length l - n) l.

(** [l[a:b]] for non-negative bounds. *)
Definition slice {A : Type} (l : list A) (a b : nat) : list A :=
  firstn (b - a) (skipn a l).

(** [range(0, n, step)]; a zero step is a [ValueError]. *)
Definition range_step (n step : nat) : result (list nat) :=
  match step with
  | O => Raise ValueError
  | S _ => Ok (map (fun q => q * step) (seq 0 ((n + step - 1) / step)))
  end.

End Py.

Import Py.

Declare Scope py_scope.
Notation "x <- m ;; k" := (bind m (fun x => k))
  (at level 61, m at next level, right associativity) : py_scope.
Open Scope py_scope.

(** ** Float scores *)

(** The selector compares scores and rounds them to four decimals.  Both
    are taken from this interface.  The order is total: the similarity
    rows hold no NaN. *)
Class PyFloat (F : Type) : Type := {
  fle : F -> F -> bool;
  fle_total : forall a b, fle a b = true \/ fle b a = true;
  fle_trans : forall a b c, fle a b = true -> fle b c = true -> fle a c = true;
  round4 : F -> F;
  round4_mono : forall a b, fle a b = true -> fle (round4 a) (round4 b) = true
}.

(** Scores that compare equal. *)
Definition feq {F : Type} `{PyFloat F} (a b : F) : Prop :=
  fle a b = true /\ fle b a = true.

(** [scores[a] <= scores[b]], both indices in range. *)
Definition sc_le {F : Type} `{PyFloat F} (v : list F) (a b : nat) : Prop :=
  exists x y, nth_error v a = Some x /\ nth_error v b = Some y /\ fle x y = true.

(** ** The NumPy routines used by the selector *)

(** NumPy documents [argsort] as returning the indices that would sort the
    array, and [argpartition v kth] as returning a permutation of the
    indices in which position [kth] holds the index it would hold in a
    sorted array, every smaller element is placed before it and every
    greater or equal one behind it, the order inside the two parts being
    unspecified.  The selector is verified against exactly this much. *)
Definition partitioned {F : Type} `{PyFloat F} (v : list F) (kth : nat) (p : list nat) : Prop :=
  exists lo pv hi,
    p = lo ++ pv :: hi /\ length lo = kth /\
    Forall (fun j => sc_le v j pv) lo /\
    Forall (fun j => sc_le v pv j) hi.

Class Numpy (F : Type) `{PyFloat F} : Type := {
  argsort : list F -> list nat;
  argsort_perm : forall v, Permutation (argsort v) (seq 0 (length v));
  argsort_sorted : forall v, StronglySorted (sc_le v) (argsort v);
  argpartition_at : list F -> nat -> list nat;
  argpartition_perm : forall v k, k < length v ->
    Permutation (argpartition_at v k) (seq 0 (length v));
  argpartition_part : forall v k, k < length v ->
    partitioned v k (argpartition_at v k)
}.

Section Selector.

Context {F : Type} `{NP : Numpy F}.

(** [np.argpartition(v, kth)] with a possibly negative [kth]: a negative
    [kth] counts from the end, and a [kth] outside the array is a
    [ValueError]. *)
Definition argpartition (v : list F) (kth : Z) : result (list nat) :=
  let n := Z.of_nat (length v) in
  let k := if (kth <? 0)%Z then (kth + n)%Z else kth in
  if ((0 <=? k)%Z && (k <? n)%Z)%bool
  then Ok (argpartition_at v (Z.to_nat k))
  else Raise ValueError.

(** One neighbour: [[int(idx), round(float(scores[idx]), 4)]]. *)
Definition entry (scores : list F) (idx : nat) : result (nat * F) :=
  s <- index scores idx ;;
  Ok (idx, round4 s).

(** Lines 148-152, for one row [scores] of the batch and its global
    index; [TOP_N_SIMILAR] is the parameter [K]. *)
Definition top_similar (K : nat) (scores : list F) (global_i : nat)
  : result (list (nat * F)) :=
  p <- argpartition scores (- Z.of_nat K - 1) ;;
  let top_indices := slice_last (K + 1) p in
  let top_indices := filter (fun j => negb (j =? global_i)) top_indices in
  sub <- take scores top_indices ;;
  let order := rev (argsort sub) in
  sel <- take top_indices order ;;
  let top_indices := firstn K sel in
  mapM (entry scores) top_indices.

End Selector.

(** ** The batched loop, lines 134-155 *)

Section Loop.

Context {F : Type} `{NP : Numpy F}.

(** The rows of the term matrix and the similarity of two of them;
    [cosine_similarity(X, Y)] is the matrix of all pairs. *)
Variable row : Type.
Variable cos : row -> row -> F.

Definition cosine_similarity (X Y : list row) : list (list F) :=
  map (fun x => map (cos x) Y) X.

(** [similarity_data]: one slot per movie, [None] until it is written. *)
Definition table : Type := list (option (list (nat * F))).

(** The body of the inner loop, lines 145-153. *)
Definition process_row (K batch_start : nat) (batch_sim : list (list F))
    (similarity_data : table) (local_i : nat) : result table :=
  let global_i := batch_start + local_i in
  scores <- index batch_sim local_i ;;
  top <- top_similar K scores global_i ;;
  setitem similarity_data global_i (Some top).

(** The body of the outer loop, lines 140-153. *)
Definition process_batch (K B : nat) (X : list row)
    (similarity_data : table) (batch_start : nat) : result table :=
  let num_movies := length X in
  let batch_end := Nat.min (batch_start + B) num_movies in
  let batch_sim := cosine_similarity (slice X batch_start batch_end) X in
  foldM (process_row K batch_start batch_sim)
        (seq 0 (batch_end - batch_start)) similarity_data.

(** The outer loop run over a given list of batch starts. *)
Definition run_batches (K B : nat) (X : list row) (starts : list nat) : result table :=
  foldM (process_batch K B X) starts (repeat None (length X)).

(** Lines 134-155: [B] is [BATCH_SIZE], [K] is [TOP_N_SIMILAR]. *)
Definition similarity_loop (K B : nat) (X : list row) : result table :=
  starts <- range_step (length X) B ;;
  run_batches K B X starts.

(** *** The loop's effect, stated without batches

    The definitions below are not lines of the script.  They say what the
    loop is expected to compute, one row at a time, and are compared with
    [similarity_loop] in the properties. *)

(** What row [i] gets when it is handled on its own. *)
Definition row_result (K : nat) (X : list row) (i : nat) : result (list (nat * F)) :=
  x <- index X i ;;
  top_similar K (map (cos x) X) i.

(** Writing one row's result into its slot. *)
Definition write_row (K : nat) (X : list row) (d : table) (g : nat) : result table :=
  top <- row_result K X g ;;
  setitem d g (Some top).

(** Writing the rows of a list of global indices, in that order. *)
Definition fill (K : nat) (X : list row) (idxs : list nat) (d : table) : result table :=
  foldM (write_row K X) idxs d.

(** The global indices covered by the batch starting at [batch_start]. *)
Definition batch_rows (B : nat) (X : list row) (batch_start : nat) : list nat :=
  seq batch_start (Nat.min (batch_start + B) (length X) - batch_start).

(** The cell written for row [g]. *)
Definition row_value (K : nat) (X : list row) (g : nat) : option (list (nat * F)) :=
  match row_result K X g with
  | Ok t => Some t
  | Raise _ => None
  end.

(** The table obtained by handling the rows one by one in index order. *)
Definition rows_in_order (K : nat) (X : list row) : result table :=
  mapM (fun i => top <- row_result K X i ;; Ok (Some top)) (seq 0 (length X)).

End Loop.

(** ** A reference implementation of the NumPy routines *)

Section Reference.

Context {F : Type} `{PF : PyFloat F}.

(** Insertion sort of (index, value) pairs by value; equal values keep
    their order. *)
Fixpoint insert_by (x : nat * F) (l : list (nat * F)) : list (nat * F) :=
  match l with
  | [] => [x]
  | y :: t => if fle (snd x) (snd y) then x :: y :: t else y :: insert_by x t
  end.

Definition isort (l : list (nat * F)) : list (nat * F) :=
  fold_right insert_by [] l.

Definition ref_argsort (v : list F) : list nat :=
  map fst (isort (combine (seq 0 (length v)) v)).

(** A full sort is one admissible answer of [argpartition]. *)
Definition ref_argpartition_at (v : list F) (kth : nat) : list nat :=
  ref_argsort v.

End Reference.

(** ** Feature documents, lines 74-101 *)

Module Features.

Open Scope string_scope.

(** One row of [df_movie].  A cell is [None] when pandas reports it as
    missing ([pd.notna] is false).  Text cells carry what [str] prints
    for them; the two numeric cells that are compared carry their
    value. *)
Record movie_row : Type := {
  directors : option string;
  writers : option string;
  genres : option string;
  startYear : option string;
  tags : option string;
  runtimeMinutes : option Q;
  averageRating : option Q
}.

(** [str(cell) if pd.notna(cell) else ""]. *)
Definition str_or_empty (cell : option string) : string :=
  match cell with
  | Some s => s
  | None => ""
  end.

Definition create_content_features (r : movie_row) : string :=
  let directors := str_or_empty (directors r) in
  let writers := str_or_empty (writers r) in
  let genres := str_or_empty (genres r) in
  let year := str_or_empty (startYear r) in
  let tags := str_or_empty (tags r) in
  let runtime :=
    match runtimeMinutes r with
    | Some m =>
        if negb (Qle_bool m 120) then "long"
        else if negb (Qle_bool m 90) then "medium"
        else "short"
    | None => ""
    end in
  let rating :=
    match averageRating r with
    | Some a =>
        if Qle_bool (75 # 10) a then "highly_rated"
        else if Qle_bool (65 # 10) a then "moderately_rated"
        else "average_rated"
    | None => ""
    end in
  genres ++ " " ++ directors ++ " " ++ writers ++ " " ++ year ++ " "
         ++ runtime ++ " " ++ rating ++ " " ++ tags.

End Features.

(** ** Rounding to four decimals *)

(** [round(x, 4)] rounds the exact value of [x] to the nearest multiple of
    1/10000, a tie going to the even multiple. *)
Definition Qrne (x : Q) : Z :=
  let f := Qfloor x in
  match Qcompare (x - inject_Z f) (1 # 2) with
  | Lt => f
  | Gt => (f + 1)%Z
  | Eq => if Z.even f then f else (f + 1)%Z
  end.

Definition Qround4 (x : Q) : Q := (inject_Z (Qrne (x * 10000)) / 10000)%Q.

Definition Rrne (x : R) : Z :=
  let f := Zfloor x in
  if Rlt_dec (x - IZR f) (1 / 2) then f
  else if Rlt_dec (1 / 2) (x - IZR f) then (f + 1)%Z
  else if Z.even f then f else (f + 1)%Z.

Definition Rround4 (x : R) : R := (IZR (Rrne (x * 10000)) / 10000)%R.

Definition Rleb (a b : R) : bool := if Rle_dec a b then true else false.

(** Dot product of two rational rows; on rows of norm one it is their
    cosine similarity, computed exactly. *)
Definition Qdot (x y : list Q) : Q :=
  fold_right Qplus 0%Q (map (fun p => (fst p * snd p)%Q) (combine x y)).

(** Two small corpora of rational rows of norm one, used as test inputs:
    in the first, rows 1 and 2 are the same document. *)
Definition four_rows : list (list Q) :=
  [[1; 0]; [3 # 5; 4 # 5]; [3 # 5; 4 # 5]; [0; 1]]%Q.

(** The table the loop builds for [four_rows] with [K = 2] under the
    reference routines. *)
Definition four_rows_table : list (option (list (nat * Q))) :=
  [Some [(2, 0.6000%Q); (1, 0.6000%Q)]; Some [(2, 1.0000%Q); (3, 0.8000%Q)];
   Some [(1, 1.0000%Q); (3, 0.8000%Q)]; Some [(2, 0.8000%Q); (1, 0.8000%Q)]].

Definition five_rows : list (list Q) :=
  [[1; 0]; [3 # 5; 4 # 5]; [4 # 5; 3 # 5]; [0; 1]; [5 # 13; 12 # 13]]%Q.

(** ** TF-IDF rows and cosine similarity, lines 108-109 and 142 *)

Module Tfidf.

Section Vectorizer.

(** Line 108 builds the vectorizer with its defaults and the English
    stop-word list; line 142 calls the library's [cosine_similarity].  The
    bodies of both routines belong to scikit-learn, not to this
    repository: the definitions of this section follow section 4.1 of the
    specification, which states what the library documents for these
    defaults.  The tokenizer (lower-casing and the token pattern) and the
    stop-word list are taken as parameters. *)
Variable tokenize : string -> list string.
Variable stop_words : list string.

(** Modelled from the spec: the analyzer of the absent vectorizer, which
    drops the stop words from the tokens of a document. *)
Definition analyze (doc : string) : list string :=
  filter (fun t => negb (existsb (String.eqb t) stop_words)) (tokenize doc).

(** Modelled from the spec: the vocabulary of the absent vectorizer, the
    distinct surviving tokens.  The library sorts them; every later step
    sums over the columns, so their order is immaterial. *)
Definition vocabulary (docs : list string) : list string :=
  nodup string_dec (concat (map analyze docs)).

(** Modelled from the spec: term frequency in the absent vectorizer, the
    raw count of a token in a document. *)
Definition tf (t : string) (doc : string) : nat :=
  count_occ string_dec (analyze doc) t.

(** Modelled from the spec: document frequency in the absent vectorizer,
    the number of documents holding the token at least once. *)
Definition df (t : string) (docs : list string) : nat :=
  length (filter (fun d => 0 <? tf t d) docs).

(** Modelled from the spec: the smoothed inverse document frequency of
    the absent vectorizer (its default [smooth_idf]). *)
Definition idf (t : string) (docs : list string) : R :=
  (ln ((1 + INR (length docs)) / (1 + INR (df t docs))) + 1)%R.

Definition sumsq (r : list R) : R :=
  fold_right (fun x acc => (x * x + acc)%R) 0%R r.

Definition l2norm (r : list R) : R := sqrt (sumsq r).

(** Modelled from the spec: the row normalisation of the absent
    vectorizer; a row of norm zero is divided by one, so that an empty
    document raises no division error. *)
Definition normalize (r : list R) : list R :=
  let n := l2norm r in
  let n := if Req_dec_T n 0 then 1%R else n in
  map (fun x => (x / n)%R) r.

(** Modelled from the spec: the weights [tf * idf] of one document in
    the absent vectorizer, before normalisation. *)
Definition weights (docs : list string) (doc : string) : list R :=
  map (fun t => (INR (tf t doc) * idf t docs)%R) (vocabulary docs).

(** Modelled from the spec: [fit_transform] of the absent vectorizer,
    one normalised row per document; an empty vocabulary (no document, or
    no surviving token) is an error, a [ValueError] in the library. *)
Definition fit_transform (docs : list string) : result (list (list R)) :=
  match vocabulary docs with
  | [] => Raise ValueError
  | _ :: _ => Ok (map (fun d => normalize (weights docs d)) docs)
  end.

Definition dot (x y : list R) : R :=
  fold_right Rplus 0%R (map (fun p => (fst p * snd p)%R) (combine x y)).

(** Modelled from the spec: one cell of the absent
    [cosine_similarity(X, Y)], the dot product of the two rows once
    normalised.  The call on line 142 applies nothing else to it. *)
Definition cosine (x y : list R) : R := dot (normalize x) (normalize y).

(** Lines 108-155 in one piece: vectorize the documents, then run the
    batched loop over the rows. *)
Definition precompute {PF : PyFloat R} {NP : @Numpy R PF} (K B : nat) (docs : list string)
  : result (list (option (list (nat * R)))) :=
  tfidf_matrix <- fit_transform docs ;;
  similarity_loop cosine K B tfidf_matrix.

End Vectorizer.

(** A plain tokenizer for test inputs: split on blanks. *)
Fixpoint split_blanks_from (cur : string) (s : string) : list string :=
  match s with
  | EmptyString => if String.eqb cur "" then [] else [cur]
  | String c rest =>
      if Ascii.eqb c " "%char
      then (if String.eqb cur "" then [] else [cur]) ++ split_blanks_from "" rest
      else split_blanks_from (cur ++ String c "") rest
  end.

Definition split_blanks (s : string) : list string := split_blanks_from "" s.

(** A two-document corpus whose first document is empty. *)
Definition empty_first : list string := [""%string; "action hero"%string].

(** The scenario corpus of three documents. *)
Definition three_docs : list string :=
  ["action hero"%string; "action hero"%string; "romance drama"%string].

End Tfidf.

(** ** Name resolution, lines 35-68 *)

Module Names.

(** A string is a sequence of characters with code point below 256.
    [str.isspace] on such a character. *)
Definition is_space (c : ascii) : bool :=
  let n := nat_of_ascii c in
  ((9 <=? n) && (n <=? 13)) || ((28 <=? n) && (n <=? 32)) || (n =? 133) || (n =? 160).

Fixpoint lstrip (s : string) : string :=
  match s with
  | EmptyString => EmptyString
  | String c rest => if is_space c then lstrip rest else s
  end.

Fixpoint rstrip (s : string) : string :=
  match s with
  | EmptyString => EmptyString
  | String c rest =>
      match rstrip rest with
      | EmptyString => if is_space c then EmptyString else String c EmptyString
      | String c' r => String c (String c' r)
      end
  end.

(** [s.strip()]. *)
Definition strip (s : string) : string := rstrip (lstrip s).

(** The character [c] occurs in [s]. *)
Fixpoint contains (c : ascii) (s : string) : bool :=
  match s with
  | EmptyString => false
  | String c' rest => Ascii.eqb c' c || contains c rest
  end.

(** [s] is empty or starts with a character that is not whitespace. *)
Definition starts_clean (s : string) : Prop :=
  match s with
  | EmptyString => True
  | String c _ => is_space c = false
  end.

(** Every character of [s] is whitespace (so is the empty string). *)
Fixpoint all_space (s : string) : bool :=
  match s with
  | EmptyString => true
  | String c rest => is_space c && all_space rest
  end.

(** [s.split(sep)] for a one-character separator: never an empty list. *)
Fixpoint split (sep : ascii) (s : string) : list string :=
  match s with
  | EmptyString => [EmptyString]
  | String c rest =>
      if Ascii.eqb c sep then EmptyString :: split sep rest
      else match split sep rest with
           | p :: ps => String c p :: ps
           | [] => [String c EmptyString]
           end
  end.

(** [sep.join(l)] for a list of strings. *)
Fixpoint join (sep : string) (l : list string) : string :=
  match l with
  | [] => EmptyString
  | [x] => x
  | x :: t => (x ++ sep ++ join sep t)%string
  end.

(** The ids of one cell: [[nid.strip() for nid in str(val).split(",")]]. *)
Definition cell_ids (val : string) : list string :=
  map strip (split ","%char val).

(** A set of strings, kept as a list without repetition; [s.add(x)]. *)
Definition set_add (x : string) (s : list string) : list string :=
  if existsb (String.eqb x) s then s else s ++ [x].

(** [column.dropna()]: the cells that are present, in row order. *)
Definition dropna (column : list (option string)) : list string :=
  flat_map (fun c => match c with Some v => [v] | None => [] end) column.

(** Lines 39-40 for one cell. *)
Definition add_cell_ids (needed_ids : list string) (val : string) : list string :=
  fold_left (fun acc nid => set_add (strip nid) acc) (split ","%char val) needed_ids.

(** Lines 38-40 for one column. *)
Definition add_column_ids (needed_ids : list string) (column : list (option string))
  : list string :=
  fold_left add_cell_ids (dropna column) needed_ids.

(** Lines 36-40. *)
Definition needed_ids (rows : list Features.movie_row) : list string :=
  fold_left add_column_ids [map Features.directors rows; map Features.writers rows] [].

(** One row of a chunk of the names file, read with [dtype=str]: a cell
    pandas reports as missing is [None]. *)
Record name_row : Type := {
  nconst : option string;
  primaryName : option string
}.

(** Some row of the chunk is about the id [k]. *)
Definition names_id (chunk : list name_row) (k : string) : Prop :=
  exists row, In row chunk /\ nconst row = Some k.

(** A dict with string keys, in insertion order; [d[k] = v] and
    [d.get(k)]. *)
Fixpoint dict_set {V : Type} (k : string) (v : V) (d : list (string * V))
  : list (string * V) :=
  match d with
  | [] => [(k, v)]
  | (k', v') :: t =>
      if String.eqb k k' then (k, v) :: t else (k', v') :: dict_set k v t
  end.

Fixpoint dict_get {V : Type} (k : string) (d : list (string * V)) : option V :=
  match d with
  | [] => None
  | (k', v') :: t => if String.eqb k k' then Some v' else dict_get k t
  end.

(** [cell.isin(needed_ids)] for one cell. *)
Definition isin (needed_ids : list string) (cell : option string) : bool :=
  match cell with
  | Some v => existsb (String.eqb v) needed_ids
  | None => false
  end.

(** Lines 48-50 for one chunk. *)
Definition add_chunk (needed_ids : list string)
    (name_lookup : list (string * option string)) (chunk : list name_row)
  : list (string * option string) :=
  fold_left
    (fun d row =>
       match nconst row with
       | Some k => dict_set k (primaryName row) d
       | None => d
       end)
    (filter (fun row => isin needed_ids (nconst row)) chunk)
    name_lookup.

(** Lines 47-53: the loop over the chunks, left as soon as the dict is
    as large as the set of needed ids. *)
Fixpoint build_name_lookup (needed_ids : list string) (chunks : list (list name_row))
    (name_lookup : list (string * option string)) : list (string * option string) :=
  match chunks with
  | [] => name_lookup
  | chunk :: rest =>
      let name_lookup := add_chunk needed_ids name_lookup chunk in
      if length needed_ids <=? length name_lookup then name_lookup
      else build_name_lookup needed_ids rest name_lookup
  end.

(** Lines 36-53 together. *)
Definition name_lookup (rows : list Features.movie_row) (chunks : list (list name_row))
  : list (string * option string) :=
  build_name_lookup (needed_ids rows) chunks [].

(** What [resolve_names] does: it returns a string, or [", ".join] meets
    an item that is not a string and raises [TypeError]. *)
Inductive outcome : Type :=
| Returns (s : string)
| TypeError.

(** The items of a list when all of them are strings. *)
Fixpoint all_str (items : list (option string)) : option (list string) :=
  match items with
  | [] => Some []
  | Some x :: t =>
      match all_str t with
      | Some l => Some (x :: l)
      | None => None
      end
  | None :: _ => None
  end.

(** [name_lookup.get(nid, nid)]. *)
Definition get_name (name_lookup : list (string * option string)) (nid : string)
  : option string :=
  match dict_get nid name_lookup with
  | Some v => v
  | None => Some nid
  end.

(** Lines 58-64. *)
Definition resolve_names (name_lookup : list (string * option string))
    (id_string : option string) : outcome :=
  match id_string with
  | None => Returns EmptyString
  | Some s =>
      if String.eqb (strip s) EmptyString then Returns EmptyString
      else
        let ids := cell_ids s in
        let names := map (get_name name_lookup) ids in
        match all_str names with
        | Some l => Returns (join ", "%string l)
        | None => TypeError
        end
  end.

(** Test inputs: two movies, and a names file in three chunks. *)
Definition sample_movies : list Features.movie_row :=
  [ {| Features.directors := Some "nm1,nm2"%string;
       Features.writers := Some "nm2, nm3"%string;
       Features.genres := Some "Drama"%string;
       Features.startYear := Some "1999"%string;
       Features.tags := None;
       Features.runtimeMinutes := Some (100 # 1)%Q;
       Features.averageRating := Some (71 # 10)%Q |};
    {| Features.directors := None;
       Features.writers := Some "  "%string;
       Features.genres := None;
       Features.startYear := None;
       Features.tags := None;
       Features.runtimeMinutes := None;
       Features.averageRating := None |} ].

Definition sample_chunks : list (list name_row) :=
  [ [ {| nconst := Some "nm1"%string; primaryName := Some "Ann Lee"%string |};
      {| nconst := Some "nm9"%string; primaryName := Some "Zed"%string |} ];
    [ {| nconst := Some "nm2"%string; primaryName := Some "Bo Diaz"%string |} ];
    [ {| nconst := Some "nm3"%string; primaryName := Some "Cy Moss"%string |} ] ].

End Names.

(** * Properties *)

(** ** Python helpers *)

Section PyFacts.

Variables A B : Type.

Lemma mapM_Forall2 (f : A -> result B) (l : list A) (r : list B) :
  mapM f l = Ok r <-> Forall2 (fun x y => f x = Ok y) l r.
Proof.
  revert r; induction l as [|x t IH]; intros r; simpl.
  - split; intros H.
    + injection H as <-. constructor.
    + inversion H. reflexivity.
  - split.
    + destruct (f x) as [y|e] eqn:Hx; [|discriminate].
      destruct (mapM f t) as [ys|e] eqn:Ht; [|discriminate].
      intros H; injection H as <-. constructor; [exact Hx|]. now apply IH.
    + intros H; inversion H as [|x' y t' ys Hx Hys]; subst.
      rewrite Hx. apply IH in Hys. now rewrite Hys.
Qed.

Lemma mapM_total (f : A -> result B) (l : list A) :
  Forall (fun x => exists y, f x = Ok y) l -> exists r, mapM f l = Ok r.
Proof.
  induction 1 as [|x t [y Hy] _ [r Hr]]; simpl.
  - now exists [].
  - exists (y :: r). now rewrite Hy, Hr.
Qed.

End PyFacts.

Section PyListFacts.

Variable A : Type.

Lemma index_Some (l : list A) (i : nat) (x : A) :
  index l i = Ok x <-> nth_error l i = Some x.
Proof.
  unfold index. destruct (nth_error l i); split; intros H; congruence.
Qed.

Lemma take_Forall2 (v : list A) (idx : list nat) (r : list A) :
  take v idx = Ok r <-> Forall2 (fun j x => nth_error v j = Some x) idx r.
Proof.
  unfold take. rewrite mapM_Forall2.
  split; intros H; (eapply Forall2_impl; [|exact H]); intros j x; apply index_Some.
Qed.

Lemma take_total (v : list A) (idx : list nat) :
  Forall (fun j => j < length v) idx -> exists r, take v idx = Ok r.
Proof.
  intros H. apply mapM_total. eapply Forall_impl; [|exact H].
  intros j Hj. cbv beta in *. unfold index.
  destruct (nth_error v j) as [x|] eqn:E; [now exists x|].
  apply nth_error_None in E. lia.
Qed.

Lemma take_seq (v : list A) : take v (seq 0 (length v)) = Ok v.
Proof.
  apply take_Forall2.
  assert (G : forall pre, Forall2 (fun j x => nth_error (pre ++ v) j = Some x)
                                  (seq (length pre) (length v)) v).
  { induction v as [|x t IH]; intros pre; simpl; constructor.
    - now rewrite nth_error_app2, Nat.sub_diag by lia.
    - specialize (IH (pre ++ [x])).
      rewrite <- app_assoc, length_app, Nat.add_1_r in IH. exact IH. }
  exact (G []).
Qed.

Lemma setitem_Ok (l : list A) (i : nat) (v : A) :
  i < length l ->
  exists l', setitem l i v = Ok l' /\ length l' = length l /\
    forall j, nth_error l' j = if j =? i then Some v else nth_error l j.
Proof.
  revert i; induction l as [|x t IH]; intros i Hi; simpl in Hi; [lia|].
  destruct i as [|i]; simpl.
  - exists (v :: t). repeat split. now intros [|j].
  - destruct (IH i) as (t' & -> & Hlen & Hnth); [lia|].
    exists (x :: t'). repeat split; [simpl; lia|].
    intros [|j]; [reflexivity|]. simpl. apply Hnth.
Qed.

Lemma foldM_app (S : Type) (f : S -> A -> result S) (l1 l2 : list A) (s : S) :
  foldM f (l1 ++ l2) s = (s' <- foldM f l1 s ;; foldM f l2 s').
Proof.
  revert s; induction l1 as [|x t IH]; intros s; simpl; [reflexivity|].
  destruct (f s x); [apply IH | reflexivity].
Qed.

Lemma foldM_map (S C : Type) (f : S -> A -> result S) (g : C -> A) (l : list C) (s : S) :
  foldM f (map g l) s = foldM (fun s c => f s (g c)) l s.
Proof.
  revert s; induction l as [|x t IH]; intros s; simpl; [reflexivity|].
  destruct (f s (g x)); [apply IH | reflexivity].
Qed.

Lemma foldM_ext (S : Type) (f g : S -> A -> result S) (l : list A) (s : S) :
  (forall s x, In x l -> f s x = g s x) -> foldM f l s = foldM g l s.
Proof.
  revert s; induction l as [|x t IH]; intros s Hfg; simpl; [reflexivity|].
  rewrite Hfg by now left.
  destruct (g s x); [|reflexivity]. apply IH. intros; apply Hfg. now right.
Qed.

End PyListFacts.

(** Two lists with the same length and the same cells are equal. *)
Lemma nth_error_ext_eq (A : Type) (l1 l2 : list A) :
  (forall j, nth_error l1 j = nth_error l2 j) -> l1 = l2.
Proof.
  revert l2; induction l1 as [|x t IH]; intros [|y u] H.
  - reflexivity.
  - specialize (H 0). discriminate.
  - specialize (H 0). discriminate.
  - f_equal.
    + specialize (H 0). simpl in H. congruence.
    + apply IH. intros j. exact (H (S j)).
Qed.

(** ** Sorted lists *)

Section SortedFacts.

Variable A : Type.
Variable R : A -> A -> Prop.

Lemma StronglySorted_app (l1 l2 : list A) :
  StronglySorted R l1 -> StronglySorted R l2 ->
  (forall a b, In a l1 -> In b l2 -> R a b) ->
  StronglySorted R (l1 ++ l2).
Proof.
  induction l1 as [|x t IH]; intros H1 H2 H12; simpl; [exact H2|].
  apply StronglySorted_inv in H1 as [Ht Hx].
  constructor.
  - apply IH; [exact Ht | exact H2 |]. intros a b Ha Hb. apply H12; [now right | exact Hb].
  - apply Forall_app; split; [exact Hx|].
    apply Forall_forall. intros b Hb. apply H12; [now left | exact Hb].
Qed.

Lemma StronglySorted_app_inv (l1 l2 : list A) :
  StronglySorted R (l1 ++ l2) ->
  StronglySorted R l1 /\ StronglySorted R l2 /\
  (forall a b, In a l1 -> In b l2 -> R a b).
Proof.
  induction l1 as [|x t IH]; simpl; intros H.
  - repeat split; [constructor | exact H | intros a b []].
  - apply StronglySorted_inv in H as [Ht Hx].
    destruct (IH Ht) as (H1 & H2 & H12).
    apply Forall_app in Hx as [Hx1 Hx2].
    repeat split; [now constructor | exact H2 |].
    intros a b [<-|Ha] Hb.
    + rewrite Forall_forall in Hx2. now apply Hx2.
    + now apply H12.
Qed.

Lemma StronglySorted_firstn (n : nat) (l : list A) :
  StronglySorted R l -> StronglySorted R (firstn n l).
Proof.
  intros H. rewrite <- (firstn_skipn n l) in H.
  now apply StronglySorted_app_inv in H.
Qed.

Lemma StronglySorted_nth_error (l : list A) (q r : nat) (a b : A) :
  StronglySorted R l -> q < r ->
  nth_error l q = Some a -> nth_error l r = Some b -> R a b.
Proof.
  intros H; revert q r; induction H as [|x t Ht IH Hx]; intros q r Hqr Ha Hb.
  - now destruct q.
  - destruct r as [|r]; [lia|]. simpl in Hb.
    destruct q as [|q]; simpl in Ha.
    + injection Ha as <-. rewrite Forall_forall in Hx.
      apply Hx. eapply nth_error_In; eassumption.
    + apply (IH q r); [lia | assumption | assumption].
Qed.

End SortedFacts.

Lemma StronglySorted_rev (A : Type) (R : A -> A -> Prop) (l : list A) :
  StronglySorted R l -> StronglySorted (fun a b => R b a) (rev l).
Proof.
  induction 1 as [|x t Ht IH Hx]; simpl; [constructor|].
  apply StronglySorted_app; [exact IH | repeat constructor |].
  intros a b Ha [<-|[]]. rewrite Forall_forall in Hx.
  apply Hx. now apply in_rev.
Qed.

(** Sortedness carried along a pointwise relation between two lists. *)
Lemma StronglySorted_Forall2 (A B : Type) (R : A -> A -> Prop) (R' : B -> B -> Prop)
    (P : A -> B -> Prop) (l : list A) (l' : list B) :
  (forall a b a' b', P a a' -> P b b' -> R a b -> R' a' b') ->
  Forall2 P l l' -> StronglySorted R l -> StronglySorted R' l'.
Proof.
  intros HP H; induction H as [|a a' t t' Ha Ht IH]; intros Hs; [constructor|].
  apply StronglySorted_inv in Hs as [Hst Hx].
  constructor; [now apply IH|].
  clear IH Hst. induction Ht as [|b b' u u' Hb Hu IH]; [constructor|].
  apply Forall_cons_iff in Hx as [Hab Hx].
  constructor; [now apply (HP a b) | now apply IH].
Qed.

Lemma Forall2_nth_error_intro (A B : Type) (P : A -> B -> Prop) (l : list A) (l' : list B) :
  length l = length l' ->
  (forall r a b, nth_error l r = Some a -> nth_error l' r = Some b -> P a b) ->
  Forall2 P l l'.
Proof.
  revert l'; induction l as [|x t IH]; intros [|y u] Hlen HP; try discriminate.
  - constructor.
  - constructor.
    + now apply (HP 0).
    + apply IH; [simpl in Hlen; lia|]. intros r a b. exact (HP (S r) a b).
Qed.

Lemma In_firstn_nth_error (A : Type) (n : nat) (l : list A) (x : A) :
  In x (firstn n l) <-> exists q, q < n /\ nth_error l q = Some x.
Proof.
  revert l; induction n as [|n IH]; intros l; simpl.
  - split; [intros [] | intros (q & Hq & _); lia].
  - destruct l as [|y t]; simpl.
    + split; [intros [] | intros (q & _ & Hq); now destruct q].
    + rewrite IH. split.
      * intros [<-|(q & Hq & Hx)]; [exists 0; split; [lia|reflexivity]|].
        exists (S q). split; [lia | exact Hx].
      * intros ([|q] & Hq & Hx); simpl in Hx; [left; congruence|].
        right. exists q. split; [lia | exact Hx].
Qed.

(** ** The order on scores *)

Section ScoreFacts.

Context {F : Type} `{PF : PyFloat F}.

Lemma fle_refl (a : F) : fle a a = true.
Proof. now destruct (fle_total a a). Qed.

Lemma feq_round4 (a b : F) : feq a b -> feq (round4 a) (round4 b).
Proof. intros [H1 H2]. split; now apply round4_mono. Qed.

Lemma sc_le_refl (v : list F) (a : nat) : a < length v -> sc_le v a a.
Proof.
  intros Ha. destruct (nth_error v a) as [x|] eqn:E.
  - exists x, x. repeat split; try assumption. apply fle_refl.
  - apply nth_error_None in E. lia.
Qed.

Lemma sc_le_trans (v : list F) (a b c : nat) :
  sc_le v a b -> sc_le v b c -> sc_le v a c.
Proof.
  intros (x & y & Hx & Hy & Hxy) (y' & z & Hy' & Hz & Hyz).
  rewrite Hy in Hy'. injection Hy' as <-.
  exists x, z. repeat split; try assumption. now apply fle_trans with y.
Qed.

Lemma sc_le_total (v : list F) (a b : nat) :
  a < length v -> b < length v -> sc_le v a b \/ sc_le v b a.
Proof.
  intros Ha Hb.
  destruct (nth_error v a) as [x|] eqn:Ex; [|apply nth_error_None in Ex; lia].
  destruct (nth_error v b) as [y|] eqn:Ey; [|apply nth_error_None in Ey; lia].
  destruct (fle_total x y) as [H|H]; [left; now exists x, y | right; now exists y, x].
Qed.

(** *** The reference routines meet the contract *)

Let ple (a b : nat * F) : Prop := fle (snd a) (snd b) = true.

Lemma insert_by_perm (x : nat * F) (l : list (nat * F)) :
  Permutation (insert_by x l) (x :: l).
Proof.
  induction l as [|y t IH]; simpl; [reflexivity|].
  destruct (fle (snd x) (snd y)); [reflexivity|].
  rewrite IH. apply perm_swap.
Qed.

Lemma isort_perm (l : list (nat * F)) : Permutation (isort l) l.
Proof.
  induction l as [|x t IH]; simpl; [reflexivity|].
  rewrite insert_by_perm. now constructor.
Qed.

Lemma insert_by_sorted (x : nat * F) (l : list (nat * F)) :
  StronglySorted ple l -> StronglySorted ple (insert_by x l).
Proof.
  induction 1 as [|y t Ht IH Hy]; simpl; [repeat constructor|].
  destruct (fle (snd x) (snd y)) eqn:E.
  - constructor; [now constructor|].
    constructor; [exact E|].
    eapply Forall_impl; [|exact Hy]. intros z Hz. unfold ple in *.
    now apply fle_trans with (snd y).
  - constructor; [exact IH|].
    eapply Permutation_Forall; [symmetry; apply insert_by_perm|].
    constructor; [|exact Hy].
    unfold ple. destruct (fle_total (snd x) (snd y)); congruence.
Qed.

Lemma isort_sorted (l : list (nat * F)) : StronglySorted ple (isort l).
Proof.
  induction l as [|x t IH]; simpl; [constructor | now apply insert_by_sorted].
Qed.

Lemma combine_seq_fst (v : list F) (a : nat) :
  map fst (combine (seq a (length v)) v) = seq a (length v).
Proof.
  revert a; induction v as [|x t IH]; intros a; simpl; [reflexivity|].
  now rewrite IH.
Qed.

Lemma combine_seq_In (v : list F) (a j : nat) (x : F) :
  In (j, x) (combine (seq a (length v)) v) ->
  a <= j /\ nth_error v (j - a) = Some x.
Proof.
  revert a; induction v as [|y t IH]; intros a; simpl; [intros []|].
  intros [E|Hin].
  - injection E as <- <-. now rewrite Nat.sub_diag.
  - apply IH in Hin as [Hle Hn]. split; [lia|].
    replace (j - a) with (S (j - S a)) by lia. exact Hn.
Qed.

Lemma ref_argsort_perm (v : list F) :
  Permutation (ref_argsort v) (seq 0 (length v)).
Proof.
  unfold ref_argsort.
  eapply Permutation_trans; [apply Permutation_map, isort_perm|].
  now rewrite combine_seq_fst.
Qed.

Lemma ref_argsort_sorted (v : list F) : StronglySorted (sc_le v) (ref_argsort v).
Proof.
  unfold ref_argsort.
  assert (Hin : forall p, In p (isort (combine (seq 0 (length v)) v)) ->
                          nth_error v (fst p) = Some (snd p)).
  { intros [j x] Hp. apply (Permutation_in _ (isort_perm _)) in Hp.
    apply combine_seq_In in Hp as [_ Hp]. now rewrite Nat.sub_0_r in Hp. }
  generalize (isort_sorted (combine (seq 0 (length v)) v)).
  revert Hin. generalize (isort (combine (seq 0 (length v)) v)) as l.
  induction l as [|p t IH]; intros Hin Hs; simpl; [constructor|].
  apply StronglySorted_inv in Hs as [Ht Hp].
  constructor.
  - apply IH; [|exact Ht]. intros q Hq. apply Hin. now right.
  - apply Forall_map. rewrite Forall_forall in *. intros q Hq.
    exists (snd p), (snd q). repeat split.
    + apply Hin. now left.
    + apply Hin. now right.
    + now apply Hp.
Qed.

Lemma sorted_partitioned (v : list F) (k : nat) (p : list nat) :
  k < length p -> Forall (fun j => j < length v) p ->
  StronglySorted (sc_le v) p -> partitioned v k p.
Proof.
  intros Hk Hr Hs.
  destruct (nth_error p k) as [pv|] eqn:E; [|apply nth_error_None in E; lia].
  apply nth_error_split in E as (lo & hi & -> & Hlo).
  exists lo, pv, hi. repeat split; [exact Hlo | |].
  - apply StronglySorted_app_inv in Hs as (_ & _ & H12).
    apply Forall_forall. intros j Hj. apply H12; [exact Hj | now left].
  - apply StronglySorted_app_inv in Hs as (_ & Hs & _).
    now apply StronglySorted_inv in Hs.
Qed.

Lemma ref_argpartition_perm (v : list F) (k : nat) :
  k < length v -> Permutation (ref_argpartition_at v k) (seq 0 (length v)).
Proof. intros _. apply ref_argsort_perm. Qed.

Lemma ref_argpartition_part (v : list F) (k : nat) :
  k < length v -> partitioned v k (ref_argpartition_at v k).
Proof.
  intros Hk. unfold ref_argpartition_at.
  pose proof (ref_argsort_perm v) as Hp.
  apply sorted_partitioned.
  - apply Permutation_length in Hp. now rewrite Hp, length_seq.
  - apply Forall_forall. intros j Hj.
    apply (Permutation_in _ Hp), in_seq in Hj. lia.
  - apply ref_argsort_sorted.
Qed.

End ScoreFacts.

(** The reference routines as an instance of the contract. *)
Definition ref_numpy (F : Type) (PF : PyFloat F) : @Numpy F PF := {|
  argsort := ref_argsort;
  argsort_perm := ref_argsort_perm;
  argsort_sorted := ref_argsort_sorted;
  argpartition_at := ref_argpartition_at;
  argpartition_perm := ref_argpartition_perm;
  argpartition_part := ref_argpartition_part
|}.

(** ** The selector *)

Lemma Forall2_nth_error (A B : Type) (P : A -> B -> Prop) (l : list A) (l' : list B)
    (n : nat) (a : A) (b : B) :
  Forall2 P l l' -> nth_error l n = Some a -> nth_error l' n = Some b -> P a b.
Proof.
  intros H; revert n; induction H as [|x y t u Hxy _ IH]; intros [|n] Ha Hb;
    simpl in *; try discriminate.
  - congruence.
  - now apply (IH n).
Qed.

Lemma NoDup_firstn (A : Type) (n : nat) (l : list A) : NoDup l -> NoDup (firstn n l).
Proof.
  intros H. rewrite <- (firstn_skipn n l) in H. now apply NoDup_app_remove_r in H.
Qed.

Lemma In_firstn (A : Type) (n : nat) (l : list A) (x : A) :
  In x (firstn n l) -> In x l.
Proof.
  intros H. rewrite <- (firstn_skipn n l). apply in_or_app. now left.
Qed.

Lemma filter_ne_length (i : nat) (l : list nat) :
  NoDup l -> length l <= S (length (filter (fun j => negb (j =? i)) l)).
Proof.
  induction 1 as [|x t Hx Ht IH]; simpl; [lia|].
  destruct (x =? i) eqn:E; simpl; [|lia].
  apply Nat.eqb_eq in E. subst x.
  assert (G : filter (fun j => negb (j =? i)) t = t); [|rewrite G; lia].
  clear IH Ht. induction t as [|y u IH]; simpl; [reflexivity|].
  destruct (y =? i) eqn:E; simpl.
  - apply Nat.eqb_eq in E. subst y. exfalso. apply Hx. now left.
  - f_equal. apply IH. intros Hin. apply Hx. now right.
Qed.

Section SelectorFacts.

Context {F : Type} `{NP : Numpy F}.

(** What the selector leaves in [top_indices] just before the scores are
    attached: [K] distinct in-range indices other than the row's own,
    in non-increasing score order, such that no index left out beats one
    that was kept. *)
Record selection (scores : list F) (K i : nat) (top : list nat) : Prop := {
  sel_length : length top = K;
  sel_nodup : NoDup top;
  sel_range : Forall (fun j => j < length scores /\ j <> i) top;
  sel_sorted : StronglySorted (fun a b => sc_le scores b a) top;
  sel_dominates : forall j, j < length scores -> j <> i -> ~ In j top ->
                  Forall (fun t => sc_le scores j t) top
}.

Lemma argpartition_neg_ok (v : list F) (K : nat) :
  K + 1 <= length v ->
  argpartition v (- Z.of_nat K - 1) = Ok (argpartition_at v (length v - (K + 1))).
Proof.
  intros HK. unfold argpartition.
  replace (- Z.of_nat K - 1 <? 0)%Z with true by (symmetry; apply Z.ltb_lt; lia).
  replace (0 <=? - Z.of_nat K - 1 + Z.of_nat (length v))%Z with true
    by (symmetry; apply Z.leb_le; lia).
  replace (- Z.of_nat K - 1 + Z.of_nat (length v) <? Z.of_nat (length v))%Z with true
    by (symmetry; apply Z.ltb_lt; lia).
  simpl. do 2 f_equal. lia.
Qed.

Lemma argpartition_neg_raise (v : list F) (K : nat) :
  length v <= K -> argpartition v (- Z.of_nat K - 1) = Raise ValueError.
Proof.
  intros HK. unfold argpartition.
  replace (- Z.of_nat K - 1 <? 0)%Z with true by (symmetry; apply Z.ltb_lt; lia).
  replace (0 <=? - Z.of_nat K - 1 + Z.of_nat (length v))%Z with false
    by (symmetry; apply Z.leb_gt; lia).
  reflexivity.
Qed.

Lemma top_similar_raise (K : nat) (scores : list F) (i : nat) :
  length scores <= K -> top_similar K scores i = Raise ValueError.
Proof.
  intros HK. unfold top_similar. now rewrite argpartition_neg_raise.
Qed.

Lemma entry_Ok (scores : list F) (idx : nat) (e : nat * F) :
  entry scores idx = Ok e <->
  exists s, nth_error scores idx = Some s /\ e = (idx, round4 s).
Proof.
  unfold entry, index. destruct (nth_error scores idx) as [s|]; simpl; split.
  - intros E. injection E as <-. now exists s.
  - intros (s' & E & ->). congruence.
  - discriminate.
  - intros (s' & E & _). discriminate.
Qed.

(** The whole of [top_similar] on a row long enough for the partition:
    it returns, and what it returns is a [selection] with its rounded
    scores. *)
Lemma top_similar_run (K : nat) (scores : list F) (i : nat) :
  K + 1 <= length scores ->
  exists top out,
    top_similar K scores i = Ok out /\
    selection scores K i top /\
    Forall2 (fun idx e => exists s, nth_error scores idx = Some s /\ e = (idx, round4 s))
            top out.
Proof.
  intros HK. unfold top_similar.
  rewrite argpartition_neg_ok by exact HK. simpl.
  set (N := length scores) in *. set (k := N - (K + 1)).
  assert (Hk : k < N) by (unfold k; lia).
  pose proof (argpartition_perm scores Hk) as Hperm.
  destruct (argpartition_part scores Hk) as (lo & pv & hi & Hp & Hlo & Hlow & Hhigh).
  fold N in Hperm. rewrite Hp in *. clear Hp.
  assert (Hlen : length (lo ++ pv :: hi) = N).
  { apply Permutation_length in Hperm. now rewrite Hperm, length_seq. }
  assert (Hslice : slice_last (K + 1) (lo ++ pv :: hi) = pv :: hi).
  { unfold slice_last. rewrite Hlen. fold k. rewrite <- Hlo.
    rewrite skipn_app, Nat.sub_diag, skipn_all. reflexivity. }
  rewrite Hslice.
  assert (Hnd : NoDup (lo ++ pv :: hi)).
  { eapply Permutation_NoDup; [symmetry; exact Hperm | apply seq_NoDup]. }
  assert (Hrange : forall j, In j (lo ++ pv :: hi) -> j < N).
  { intros j Hj. apply (Permutation_in _ Hperm), in_seq in Hj. lia. }
  assert (Hnd0 : NoDup (pv :: hi)) by (now apply NoDup_app_remove_l in Hnd).
  assert (Hlen0 : length (pv :: hi) = K + 1).
  { rewrite length_app in Hlen. unfold k in Hlo. lia. }
  set (cand := filter (fun j => negb (j =? i)) (pv :: hi)).
  assert (Hcand : forall j, In j cand <-> In j (pv :: hi) /\ j <> i).
  { intros j. unfold cand. rewrite filter_In, negb_true_iff, Nat.eqb_neq. tauto. }
  assert (Hcand_len : K <= length cand).
  { pose proof (filter_ne_length i Hnd0) as G. fold cand in G. lia. }
  assert (Hcand_nd : NoDup cand) by (apply NoDup_filter; exact Hnd0).
  assert (Hcand_rng : Forall (fun j => j < N) cand).
  { apply Forall_forall. intros j Hj. apply Hcand in Hj as [Hj _].
    apply Hrange, in_or_app. now right. }
  destruct (take_total scores Hcand_rng) as [sub Hsub]. rewrite Hsub. simpl.
  apply take_Forall2 in Hsub.
  assert (Hsublen : length sub = length cand).
  { symmetry. eapply Forall2_length; exact Hsub. }
  set (order := rev (argsort sub)).
  assert (Horder : Permutation order (seq 0 (length cand))).
  { unfold order. rewrite <- Permutation_rev, <- Hsublen. apply argsort_perm. }
  assert (Horder_rng : Forall (fun j => j < length cand) order).
  { apply Forall_forall. intros j Hj. apply (Permutation_in _ Horder), in_seq in Hj. lia. }
  destruct (take_total cand Horder_rng) as [sel Hsel]. rewrite Hsel. simpl.
  apply take_Forall2 in Hsel.
  assert (Hselperm : Permutation sel cand).
  { destruct (Permutation_Forall2 Horder Hsel) as (sel' & Hps & Hf).
    apply take_Forall2 in Hf. rewrite take_seq in Hf. injection Hf as <-. exact Hps. }
  assert (Hselsorted : StronglySorted (fun a b => sc_le scores b a) sel).
  { eapply StronglySorted_Forall2; [| exact Hsel | apply StronglySorted_rev, argsort_sorted].
    intros a b a' b' Ha Hb (x & y & Hx & Hy & Hxy). cbv beta in *.
    exists x, y. repeat split; [| | exact Hxy].
    - exact (Forall2_nth_error _ Hsub Hb Hx).
    - exact (Forall2_nth_error _ Hsub Ha Hy). }
  set (top := firstn K sel).
  assert (Hsellen : length sel = length cand) by (now apply Permutation_length).
  assert (Htop_in : forall j, In j top -> In j cand).
  { intros j Hj. apply (Permutation_in _ Hselperm). eapply In_firstn; exact Hj. }
  assert (Htop_rng : Forall (fun j => exists e, entry scores j = Ok e) top).
  { apply Forall_forall. intros j Hj. apply Htop_in in Hj.
    rewrite Forall_forall in Hcand_rng. apply Hcand_rng in Hj.
    destruct (nth_error scores j) as [s|] eqn:E; [|apply nth_error_None in E; fold N in E; lia].
    exists (j, round4 s). apply entry_Ok. now exists s. }
  destruct (mapM_total _ Htop_rng) as [out Hout].
  exists top, out. split; [exact Hout|]. split.
  - constructor.
    + unfold top. rewrite length_firstn. lia.
    + apply NoDup_firstn. eapply Permutation_NoDup; [symmetry; exact Hselperm | exact Hcand_nd].
    + apply Forall_forall. intros j Hj. apply Htop_in in Hj. split.
      * rewrite Forall_forall in Hcand_rng. now apply Hcand_rng.
      * now apply Hcand in Hj.
    + now apply StronglySorted_firstn.
    + intros j Hj Hji Hnot. apply Forall_forall. intros t Ht.
      assert (Htc : In t (pv :: hi)) by (now apply Htop_in, Hcand in Ht).
      assert (Hpvt : sc_le scores pv t).
      { destruct Htc as [<-|Hin].
        - apply sc_le_refl, Hrange, in_or_app. right. now left.
        - rewrite Forall_forall in Hhigh. now apply Hhigh. }
      assert (Hjp : In j (lo ++ pv :: hi)).
      { apply (Permutation_in _ (Permutation_sym Hperm)), in_seq. fold N. lia. }
      apply in_app_or in Hjp as [Hjlo|Hjhi].
      * rewrite Forall_forall in Hlow. eapply sc_le_trans; [apply Hlow, Hjlo | exact Hpvt].
      * assert (Hjsel : In j sel).
        { apply (Permutation_in _ (Permutation_sym Hselperm)), Hcand. now split. }
        rewrite <- (firstn_skipn K sel) in Hjsel, Hselsorted.
        apply in_app_or in Hjsel as [Hj1|Hj2]; [now elim Hnot|].
        apply StronglySorted_app_inv in Hselsorted as (_ & _ & H12).
        now apply (H12 t j).
  - apply mapM_Forall2 in Hout. eapply Forall2_impl; [|exact Hout].
    intros a b. apply entry_Ok.
Qed.

End SelectorFacts.

Section SelectionUnique.

Context {F : Type} `{PF : PyFloat F}.

(** Two selections from the same row carry, position by position, scores
    that compare equal: a selection fixes the score sequence even when it
    does not fix the indices. *)
Lemma selection_le (scores : list F) (K i : nat) (top1 top2 : list nat) :
  selection scores K i top1 -> selection scores K i top2 ->
  Forall2 (fun a b => sc_le scores a b) top1 top2.
Proof.
  intros S1 S2.
  apply Forall2_nth_error_intro;
    [now rewrite (sel_length S1), (sel_length S2)|].
  intros r a b Ha Hb.
  assert (Hr : r < K).
  { rewrite <- (sel_length S1). apply nth_error_Some. congruence. }
  pose proof (sel_range S1) as R1. pose proof (sel_range S2) as R2.
  rewrite Forall_forall in R1, R2.
  assert (Hain : In a top1) by (eapply nth_error_In; exact Ha).
  assert (Hbin : In b top2) by (eapply nth_error_In; exact Hb).
  destruct (sc_le_total scores (proj1 (R1 a Hain)) (proj1 (R2 b Hbin))) as [Hab|Hba];
    [exact Hab|].
  destruct Hba as (y & x & Hy & Hx & Hyx).
  destruct (fle x y) eqn:Hxy; [now exists x, y|]. exfalso.
  assert (Hincl : incl (firstn (S r) top1) (firstn r top2)).
  { intros z Hz. apply In_firstn_nth_error in Hz as (q' & Hq' & Hz).
    assert (Haz : sc_le scores a z).
    { destruct (Nat.eq_dec q' r) as [->|Hne].
      - replace z with a by congruence. now exists x, x; repeat split; try apply fle_refl.
      - apply (StronglySorted_nth_error (sel_sorted S1) (q := q') (r := r)); [lia | exact Hz | exact Ha]. }
    assert (Hzin : In z top1) by (eapply nth_error_In; exact Hz).
    assert (Hcontra : sc_le scores z b -> False).
    { intros Hzb. pose proof (sc_le_trans Haz Hzb) as (x' & y' & Hx' & Hy' & Hle).
      congruence. }
    destruct (in_dec Nat.eq_dec z top2) as [Hin|Hout].
    - apply In_nth_error in Hin as (q & Hq).
      apply In_firstn_nth_error. exists q. split; [|exact Hq].
      destruct (Nat.lt_ge_cases q r) as [Hlt|Hge]; [exact Hlt|]. exfalso. apply Hcontra.
      destruct (Nat.eq_dec q r) as [->|Hne].
      + replace z with b by congruence. now exists y, y; repeat split; try apply fle_refl.
      + apply (StronglySorted_nth_error (sel_sorted S2) (q := r) (r := q)); [lia | exact Hb | exact Hq].
    - exfalso. apply Hcontra.
      pose proof (sel_dominates S2 (proj1 (R1 z Hzin)) (proj2 (R1 z Hzin)) Hout) as D.
      rewrite Forall_forall in D. now apply D. }
  apply NoDup_incl_length in Hincl; [|apply NoDup_firstn, (sel_nodup S1)].
  rewrite !length_firstn, (sel_length S1), (sel_length S2) in Hincl. lia.
Qed.

End SelectionUnique.

(** ** The batched loop *)

Lemma seq_add_map (a len : nat) : map (fun l => a + l) (seq 0 len) = seq a len.
Proof.
  revert a; induction len as [|len IH]; intros a; simpl; [reflexivity|].
  rewrite Nat.add_0_r. f_equal. rewrite <- seq_shift, map_map.
  rewrite <- (IH (S a)). apply map_ext. intros; lia.
Qed.

Section LoopFacts.

Context {F : Type} `{NP : Numpy F}.
Variable row : Type.
Variable cos : row -> row -> F.

Lemma batch_rows_range (B : nat) (X : list row) (bs g : nat) :
  In g (batch_rows B X bs) -> g < length X.
Proof. unfold batch_rows. rewrite in_seq. lia. Qed.

Lemma batch_sim_row (B : nat) (X : list row) (bs local_i : nat) :
  local_i < Nat.min (bs + B) (length X) - bs ->
  index (cosine_similarity cos (slice X bs (Nat.min (bs + B) (length X))) X) local_i =
  (x <- index X (bs + local_i) ;; Ok (map (cos x) X)).
Proof.
  intros Hl. unfold index, cosine_similarity, slice.
  rewrite nth_error_map, nth_error_firstn, nth_error_skipn.
  replace (local_i <? Nat.min (bs + B) (length X) - bs) with true
    by (symmetry; now apply Nat.ltb_lt).
  now destruct (nth_error X (bs + local_i)).
Qed.

Lemma process_batch_fill (K B : nat) (X : list row) (d : table) (bs : nat) :
  process_batch cos K B X d bs = fill cos K X (batch_rows B X bs) d.
Proof.
  unfold process_batch, fill, batch_rows.
  set (len := Nat.min (bs + B) (length X) - bs).
  rewrite <- (seq_add_map bs len), foldM_map.
  apply foldM_ext. intros s l Hl.
  apply in_seq in Hl. unfold process_row, write_row, row_result.
  rewrite batch_sim_row by (fold len; lia).
  now destruct (index X (bs + l)).
Qed.

Lemma run_batches_fill (K B : nat) (X : list row) (starts : list nat) :
  run_batches cos K B X starts =
  fill cos K X (flat_map (batch_rows B X) starts) (repeat None (length X)).
Proof.
  unfold run_batches. generalize (repeat (@None (list (nat * F))) (length X)) as d.
  induction starts as [|bs t IH]; intros d; simpl; [reflexivity|].
  unfold fill in *. rewrite foldM_app, process_batch_fill. unfold fill.
  destruct (foldM (write_row cos K X) (batch_rows B X bs) d); simpl; [apply IH | reflexivity].
Qed.

Lemma range_rows (B : nat) (X : list row) (q : nat) :
  flat_map (batch_rows B X) (map (fun q => q * B) (seq 0 q)) =
  seq 0 (Nat.min (q * B) (length X)).
Proof.
  induction q as [|q IH]; [reflexivity|].
  rewrite seq_S, map_app, flat_map_app, IH. simpl. rewrite app_nil_r.
  unfold batch_rows.
  destruct (Nat.le_gt_cases (q * B) (length X)) as [Hle|Hgt].
  - rewrite (Nat.min_l (q * B)) by exact Hle.
    rewrite <- (seq_app (q * B) _ 0). f_equal. lia.
  - replace (Nat.min (q * B + B) (length X) - q * B) with 0 by lia.
    rewrite app_nil_r. f_equal. lia.
Qed.

Lemma range_covers (B : nat) (X : list row) (starts : list nat) :
  range_step (length X) B = Ok starts ->
  flat_map (batch_rows B X) starts = seq 0 (length X).
Proof.
  unfold range_step. destruct B as [|b]; [discriminate|].
  intros E. injection E as <-. rewrite range_rows. f_equal.
  apply Nat.min_r.
  pose proof (Nat.div_mod_eq (length X + S b - 1) (S b)) as Hd.
  assert (Hm : (length X + S b - 1) mod S b < S b) by (apply Nat.mod_upper_bound; lia).
  rewrite (Nat.mul_comm _ (S b)).
  change (fst (Nat.divmod (length X + S b - 1) b 0 b))
    with ((length X + S b - 1) / S b).
  lia.
Qed.

Lemma row_result_ok (K : nat) (X : list row) (g : nat) :
  K + 1 <= length X -> g < length X -> exists t, row_result cos K X g = Ok t.
Proof.
  intros HK Hg. unfold row_result, index.
  destruct (nth_error X g) as [x|] eqn:E; [|apply nth_error_None in E; lia]. simpl.
  destruct (@top_similar_run F _ NP K (map (cos x) X) g) as (top & out & Hout & _).
  - now rewrite length_map.
  - now exists out.
Qed.

Lemma row_result_raise (K : nat) (X : list row) (g : nat) :
  length X <= K -> g < length X -> row_result cos K X g = Raise ValueError.
Proof.
  intros HK Hg. unfold row_result, index.
  destruct (nth_error X g) as [x|] eqn:E; [|apply nth_error_None in E; lia]. simpl.
  apply top_similar_raise. now rewrite length_map.
Qed.

(** When every row can be handled, a run over any list of in-range
    indices writes exactly those cells. *)
Lemma fill_lookup (K : nat) (X : list row) (idxs : list nat) (d : table) :
  K + 1 <= length X -> length d = length X ->
  Forall (fun g => g < length X) idxs ->
  exists d', fill cos K X idxs d = Ok d' /\ length d' = length X /\
    forall j, nth_error d' j =
              if in_dec Nat.eq_dec j idxs then Some (row_value cos K X j) else nth_error d j.
Proof.
  intros HK. unfold fill.
  revert d; induction idxs as [|g t IH]; intros d Hd Hr; simpl.
  - exists d. repeat split; assumption.
  - apply Forall_cons_iff in Hr as [Hg Hr].
    destruct (@row_result_ok K X g HK Hg) as [top Htop].
    unfold write_row at 1. rewrite Htop. simpl.
    destruct (@setitem_Ok _ d g (Some top)) as (d1 & -> & Hlen1 & Hnth1); [lia|].
    destruct (IH d1) as (d' & Hfill & Hlen' & Hnth'); [lia | exact Hr |].
    exists d'. split; [exact Hfill|]. split; [exact Hlen'|].
    intros j. rewrite Hnth', Hnth1.
    destruct (in_dec Nat.eq_dec j t) as [Hin|Hout];
      destruct (Nat.eq_dec g j) as [->|Hne]; try reflexivity.
    + rewrite Nat.eqb_refl. unfold row_value. now rewrite Htop.
    + destruct (j =? g) eqn:E; [apply Nat.eqb_eq in E; congruence | reflexivity].
Qed.

Lemma fill_raise (K : nat) (X : list row) (idxs : list nat) (d : table) :
  length X <= K -> Forall (fun g => g < length X) idxs -> idxs <> [] ->
  fill cos K X idxs d = Raise ValueError.
Proof.
  intros HK Hr Hne. destruct idxs as [|g t]; [congruence|]. unfold fill. simpl.
  apply Forall_cons_iff in Hr as [Hg _].
  unfold write_row at 1. now rewrite row_result_raise.
Qed.

End LoopFacts.

(** ** Exact rational scores *)

Lemma Qrne_bounds (x : Q) : (Qfloor x <= Qrne x <= Qfloor x + 1)%Z.
Proof.
  unfold Qrne. destruct (Qcompare _ _); [destruct (Z.even _)| |]; lia.
Qed.

Lemma Qrne_mono (x y : Q) : (x <= y)%Q -> (Qrne x <= Qrne y)%Z.
Proof.
  intros Hxy. pose proof (Qfloor_resp_le _ _ Hxy) as Hf.
  destruct (Z.eq_dec (Qfloor x) (Qfloor y)) as [E|NE].
  - unfold Qrne. rewrite <- E.
    destruct (Qcompare_spec (x - inject_Z (Qfloor x)) (1 # 2)) as [Hx|Hx|Hx];
      destruct (Qcompare_spec (y - inject_Z (Qfloor x)) (1 # 2)) as [Hy|Hy|Hy];
      try (destruct (Z.even (Qfloor x))); try lia;
      exfalso; Lqa.lra.
  - pose proof (Qrne_bounds x). pose proof (Qrne_bounds y). lia.
Qed.

Lemma Qround4_mono (x y : Q) : (x <= y)%Q -> (Qround4 x <= Qround4 y)%Q.
Proof.
  intros Hxy. unfold Qround4.
  assert (H : (Qrne (x * 10000) <= Qrne (y * 10000))%Z) by (apply Qrne_mono; Lqa.lra).
  rewrite Zle_Qle in H. unfold Qdiv.
  apply Qmult_le_compat_r; [exact H | discriminate].
Qed.

Lemma Qle_bool_total (a b : Q) : Qle_bool a b = true \/ Qle_bool b a = true.
Proof.
  rewrite !Qle_bool_iff. destruct (Qlt_le_dec a b) as [H|H]; [left | right]; Lqa.lra.
Qed.

Lemma Qle_bool_trans (a b c : Q) :
  Qle_bool a b = true -> Qle_bool b c = true -> Qle_bool a c = true.
Proof. rewrite !Qle_bool_iff. apply Qle_trans. Qed.

Lemma Qround4_mono_bool (a b : Q) :
  Qle_bool a b = true -> Qle_bool (Qround4 a) (Qround4 b) = true.
Proof. rewrite !Qle_bool_iff. apply Qround4_mono. Qed.

#[export] Instance Q_float : PyFloat Q := {|
  fle := Qle_bool;
  fle_total := Qle_bool_total;
  fle_trans := Qle_bool_trans;
  round4 := Qround4;
  round4_mono := Qround4_mono_bool
|}.

(** ** Real scores *)

Lemma Rrne_bounds (x : R) : (Zfloor x <= Rrne x <= Zfloor x + 1)%Z.
Proof.
  unfold Rrne. destruct (Rlt_dec _ _); [lia|].
  destruct (Rlt_dec _ _); [lia|]. destruct (Z.even _); lia.
Qed.

Lemma Rrne_mono (x y : R) : (x <= y)%R -> (Rrne x <= Rrne y)%Z.
Proof.
  intros Hxy. pose proof (Zfloor_le x y Hxy) as Hf.
  destruct (Z.eq_dec (Zfloor x) (Zfloor y)) as [E|NE].
  - unfold Rrne. rewrite <- E.
    destruct (Rlt_dec (x - IZR (Zfloor x)) (1 / 2));
      destruct (Rlt_dec (y - IZR (Zfloor x)) (1 / 2));
      destruct (Rlt_dec (1 / 2) (x - IZR (Zfloor x)));
      destruct (Rlt_dec (1 / 2) (y - IZR (Zfloor x)));
      try (destruct (Z.even (Zfloor x))); try lia;
      exfalso; Lra.lra.
  - pose proof (Rrne_bounds x). pose proof (Rrne_bounds y). lia.
Qed.

Lemma Rround4_mono (x y : R) : (x <= y)%R -> (Rround4 x <= Rround4 y)%R.
Proof.
  intros Hxy. unfold Rround4.
  assert (H : (Rrne (x * 10000) <= Rrne (y * 10000))%Z) by (apply Rrne_mono; Lra.lra).
  apply IZR_le in H. Lra.lra.
Qed.

Lemma Rround4_0 : Rround4 0 = 0%R.
Proof.
  unfold Rround4, Rrne. rewrite Rmult_0_l.
  replace (Zfloor 0) with 0%Z by (symmetry; apply Zfloor_eq; simpl; Lra.lra).
  destruct (Rlt_dec (0 - 0) (1 / 2)); [|exfalso; Lra.lra].
  unfold Rdiv. apply Rmult_0_l.
Qed.

Lemma Rleb_iff (a b : R) : Rleb a b = true <-> (a <= b)%R.
Proof. unfold Rleb. destruct (Rle_dec a b); split; intros; congruence. Qed.

Lemma Rleb_total (a b : R) : Rleb a b = true \/ Rleb b a = true.
Proof. rewrite !Rleb_iff. Lra.lra. Qed.

Lemma Rleb_trans (a b c : R) : Rleb a b = true -> Rleb b c = true -> Rleb a c = true.
Proof. rewrite !Rleb_iff. Lra.lra. Qed.

Lemma Rround4_mono_bool (a b : R) :
  Rleb a b = true -> Rleb (Rround4 a) (Rround4 b) = true.
Proof. rewrite !Rleb_iff. apply Rround4_mono. Qed.

#[export] Instance R_float : PyFloat R := {|
  fle := Rleb;
  fle_total := Rleb_total;
  fle_trans := Rleb_trans;
  round4 := Rround4;
  round4_mono := Rround4_mono_bool
|}.

(** ** The loop as a whole *)

Lemma mapM_pure (A B : Type) (f : A -> result B) (g : A -> B) (l : list A) :
  (forall x, In x l -> f x = Ok (g x)) -> mapM f l = Ok (map g l).
Proof.
  induction l as [|x t IH]; intros Hf; simpl; [reflexivity|].
  rewrite Hf by now left. rewrite IH; [reflexivity|]. intros y Hy. apply Hf. now right.
Qed.

Section LoopMain.

Context {F : Type} `{NP : Numpy F}.
Variable row : Type.
Variable cos : row -> row -> F.

(** Batching is invisible: for any positive batch size the loop builds the
    table of the rows taken one by one, and fails exactly when that
    does, with the same exception. *)
Lemma loop_rows_in_order (K B : nat) (X : list row) :
  0 < B -> similarity_loop cos K B X = rows_in_order cos K X.
Proof.
  intros HB. unfold similarity_loop.
  destruct (range_step (length X) B) as [starts|e] eqn:Hs;
    [|destruct B; [lia | discriminate]].
  simpl. rewrite run_batches_fill, (range_covers _ _ Hs). unfold rows_in_order.
  destruct (Nat.le_gt_cases (K + 1) (length X)) as [HK|HK].
  - destruct (@fill_lookup F _ NP row cos K X (seq 0 (length X))
                (repeat None (length X)) HK) as (d' & -> & Hlen & Hnth).
    + apply repeat_length.
    + apply Forall_forall. intros g Hg. apply in_seq in Hg. lia.
    + rewrite (@mapM_pure _ _ _ (row_value cos K X)).
      * f_equal. apply nth_error_ext_eq. intros j.
        rewrite Hnth, nth_error_map, nth_error_seq.
        destruct (in_dec Nat.eq_dec j (seq 0 (length X))) as [Hin|Hout];
          destruct (j <? length X) eqn:E; try reflexivity.
        -- apply in_seq in Hin. apply Nat.ltb_ge in E. lia.
        -- apply Nat.ltb_lt in E. exfalso. apply Hout, in_seq. lia.
        -- apply nth_error_None. rewrite repeat_length. now apply Nat.ltb_ge in E.
      * intros g Hg. apply in_seq in Hg.
        destruct (@row_result_ok F _ NP row cos K X g HK) as [t Ht]; [lia|].
        unfold row_value. now rewrite Ht.
  - destruct (length X) as [|n] eqn:HN; [reflexivity|].
    rewrite fill_raise.
    + simpl. rewrite row_result_raise; [reflexivity | lia | lia].
    + lia.
    + apply Forall_forall. intros g Hg. apply in_seq in Hg. lia.
    + discriminate.
Qed.

(** Every cell of a finished table is the selector's answer for its row,
    and a table is only finished when the rows are long enough. *)
Lemma loop_cell (K B : nat) (X : list row) (tbl : table) (j : nat)
    (c : option (list (nat * F))) :
  similarity_loop cos K B X = Ok tbl -> nth_error tbl j = Some c ->
  exists x out, c = Some out /\ nth_error X j = Some x /\
                top_similar K (map (cos x) X) j = Ok out /\
                K + 1 <= length X.
Proof.
  intros Hrun Hc.
  assert (HB : 0 < B).
  { destruct B; [|lia]. unfold similarity_loop in Hrun. discriminate. }
  rewrite loop_rows_in_order in Hrun by exact HB.
  unfold rows_in_order in Hrun. apply mapM_Forall2 in Hrun.
  assert (Hj : nth_error (seq 0 (length X)) j = Some j).
  { rewrite nth_error_seq.
    replace (j <? length X) with true; [reflexivity|].
    symmetry. apply Nat.ltb_lt.
    pose proof (Forall2_length Hrun) as HL. rewrite length_seq in HL.
    rewrite HL. apply nth_error_Some. congruence. }
  pose proof (Forall2_nth_error _ Hrun Hj Hc) as Hcell. cbv beta in Hcell.
  unfold row_result, index in Hcell.
  destruct (nth_error X j) as [x|] eqn:Hx; [|discriminate]. simpl in Hcell.
  destruct (top_similar K (map (cos x) X) j) as [out|e] eqn:Hout; [|discriminate].
  exists x, out. injection Hcell as <-.
  split; [reflexivity|]. split; [reflexivity|]. split; [exact Hout|].
  destruct (Nat.le_gt_cases (K + 1) (length X)) as [HK|HK]; [exact HK|].
  rewrite top_similar_raise in Hout; [discriminate|]. rewrite length_map. lia.
Qed.

(** With at least [K + 1] rows and a positive batch size the loop
    finishes and fills every slot. *)
Lemma loop_finishes (K B : nat) (X : list row) :
  0 < B -> K + 1 <= length X ->
  exists tbl, similarity_loop cos K B X = Ok tbl /\ length tbl = length X.
Proof.
  intros HB HK. rewrite loop_rows_in_order by exact HB. unfold rows_in_order.
  destruct (@mapM_total nat _ (fun i => top <- row_result cos K X i ;; Ok (Some top))
              (seq 0 (length X))) as [tbl Htbl].
  - apply Forall_forall. intros g Hg. apply in_seq in Hg.
    destruct (@row_result_ok F _ NP row cos K X g HK) as [t Ht]; [lia|].
    exists (Some t). now rewrite Ht.
  - exists tbl. split; [exact Htbl|].
    apply mapM_Forall2, Forall2_length in Htbl. now rewrite <- Htbl, length_seq.
Qed.

End LoopMain.

Lemma Forall2_nth_error_r (A B : Type) (P : A -> B -> Prop) (l : list A) (l' : list B)
    (n : nat) (b : B) :
  Forall2 P l l' -> nth_error l' n = Some b ->
  exists a, nth_error l n = Some a /\ P a b.
Proof.
  intros H; revert n; induction H as [|x y t u Hxy _ IH]; intros [|n] Hb;
    simpl in *; try discriminate.
  - injection Hb as <-. now exists x.
  - now apply IH.
Qed.

Lemma Forall2_map_fst (A B : Type) (P : A -> A * B -> Prop) (l : list A)
    (l' : list (A * B)) :
  (forall a e, P a e -> fst e = a) -> Forall2 P l l' -> map fst l' = l.
Proof.
  intros HP H; induction H as [|a e t u Hae _ IH]; simpl; [reflexivity|].
  now rewrite IH, (HP a e Hae).
Qed.

Section Cells.

Context {F : Type} `{NP : Numpy F}.
Variable row : Type.
Variable cos : row -> row -> F.

(** What a written cell holds: the rounded scores of a [selection] from
    its row of similarities. *)
Lemma cell_selection (K B : nat) (X : list row) (tbl : table) (j : nat)
    (out : list (nat * F)) :
  similarity_loop cos K B X = Ok tbl -> nth_error tbl j = Some (Some out) ->
  exists x top,
    nth_error X j = Some x /\ K + 1 <= length X /\
    selection (map (cos x) X) K j top /\
    Forall2 (fun idx e => exists s, nth_error (map (cos x) X) idx = Some s /\
                                    e = (idx, round4 s)) top out.
Proof.
  intros Hrun Hc.
  destruct (@loop_cell F _ NP row cos K B X tbl j _ Hrun Hc) as (x & out' & E & Hx & Hout & HK).
  injection E as <-.
  destruct (@top_similar_run F _ NP K (map (cos x) X) j) as (top & o & Ho & Hsel & Hf);
    [now rewrite length_map|].
  rewrite Hout in Ho. injection Ho as <-.
  now exists x, top.
Qed.

End Cells.

(** * The selector and the loop: main results *)




(** C4.  The Neighbor List written for row [i] never holds [i], whatever
    the rows and their similarities are. *)
Theorem neighbor_list_excludes_self :
  forall (F : Type) (PF : PyFloat F) (NP : @Numpy F PF) (row : Type)
         (cos : row -> row -> F) (K B : nat) (X : list row)
         (tbl : table) (i : nat) (out : list (nat * F)),
    similarity_loop cos K B X = Ok tbl ->
    nth_error tbl i = Some (Some out) ->
    ~ In i (map fst out).
Proof.
  intros F PF NP row cos K B X tbl i out Hrun Hc Hin.
  destruct (@cell_selection F PF NP row cos K B X tbl i out Hrun Hc)
    as (x & top & _ & _ & Hsel & Hf).
  assert (Hfst : map fst out = top).
  { eapply Forall2_map_fst; [|exact Hf]. now intros a e (s & _ & ->). }
  rewrite Hfst in Hin. pose proof (sel_range Hsel) as R.
  rewrite Forall_forall in R. now destruct (R i Hin).
Qed.

Lemma four_rows_run :
  similarity_loop (NP := ref_numpy Q_float) Qdot 2 500 four_rows = Ok four_rows_table.
Proof. vm_compute. reflexivity. Qed.

Lemma neighbor_list_excludes_self_witness :
  similarity_loop (NP := ref_numpy Q_float) Qdot 2 500 four_rows = Ok four_rows_table /\
  nth_error four_rows_table 0 = Some (Some [(2, 0.6000%Q); (1, 0.6000%Q)]) /\
  ~ In 0 (map fst [(2, 0.6000%Q); (1, 0.6000%Q)]).
Proof.
  split; [exact four_rows_run|]. split; [reflexivity|].
  exact (@neighbor_list_excludes_self Q Q_float (ref_numpy Q_float) (list Q) Qdot
           2 500 four_rows four_rows_table 0 _ four_rows_run eq_refl).
Defined.

(** C5.  In every Neighbor List the emitted scores are non-increasing from
    first to last, and so are the similarities they were rounded from. *)
Theorem neighbor_scores_non_increasing :
  forall (F : Type) (PF : PyFloat F) (NP : @Numpy F PF) (row : Type)
         (cos : row -> row -> F) (K B : nat) (X : list row)
         (tbl : table) (i : nat) (out : list (nat * F)),
    similarity_loop cos K B X = Ok tbl ->
    nth_error tbl i = Some (Some out) ->
    StronglySorted (fun e1 e2 => fle (snd e2) (snd e1) = true) out /\
    exists x, nth_error X i = Some x /\
      StronglySorted (fun e1 e2 => sc_le (map (cos x) X) (fst e2) (fst e1)) out.
Proof.
  intros F PF NP row cos K B X tbl i out Hrun Hc.
  destruct (@cell_selection F PF NP row cos K B X tbl i out Hrun Hc)
    as (x & top & Hx & _ & Hsel & Hf).
  split; [|exists x; split; [exact Hx|]].
  - eapply StronglySorted_Forall2; [| exact Hf | exact (sel_sorted Hsel)].
    intros a b e1 e2 (s1 & H1 & ->) (s2 & H2 & ->) (y & z & Hy & Hz & Hyz). simpl.
    apply round4_mono. congruence.
  - eapply StronglySorted_Forall2; [| exact Hf | exact (sel_sorted Hsel)].
    now intros a b e1 e2 (s1 & H1 & ->) (s2 & H2 & ->) Hab.
Qed.

Lemma neighbor_scores_non_increasing_witness :
  similarity_loop (NP := ref_numpy Q_float) Qdot 2 500 four_rows = Ok four_rows_table /\
  nth_error four_rows_table 1 = Some (Some [(2, 1.0000%Q); (3, 0.8000%Q)]) /\
  StronglySorted (fun e1 e2 => fle (snd e2) (snd e1) = true)
                 [(2, 1.0000%Q); (3, 0.8000%Q)].
Proof.
  split; [exact four_rows_run|]. split; [reflexivity|].
  exact (proj1 (@neighbor_scores_non_increasing Q Q_float (ref_numpy Q_float) (list Q)
                  Qdot 2 500 four_rows four_rows_table 1 _ four_rows_run eq_refl)).
Defined.

(** C2 (amended).  No index order is imposed on entries of equal score;
    what is fixed is the score sequence: whichever conforming partition
    and sort routines are used, and whatever the batch sizes, the
    Neighbor Lists of one row carry scores that compare equal position by
    position. *)
Theorem neighbor_scores_determined :
  forall (F : Type) (PF : PyFloat F) (NP1 NP2 : @Numpy F PF) (row : Type)
         (cos : row -> row -> F) (K B1 B2 : nat) (X : list row)
         (tbl1 tbl2 : table) (i : nat) (out1 out2 : list (nat * F)),
    similarity_loop (NP := NP1) cos K B1 X = Ok tbl1 ->
    similarity_loop (NP := NP2) cos K B2 X = Ok tbl2 ->
    nth_error tbl1 i = Some (Some out1) ->
    nth_error tbl2 i = Some (Some out2) ->
    Forall2 (fun e1 e2 => feq (snd e1) (snd e2)) out1 out2.
Proof.
  intros F PF NP1 NP2 row cos K B1 B2 X tbl1 tbl2 i out1 out2 Hr1 Hr2 Hc1 Hc2.
  destruct (@cell_selection F PF NP1 row cos K B1 X tbl1 i out1 Hr1 Hc1)
    as (x & top1 & Hx & _ & Hs1 & Hf1).
  destruct (@cell_selection F PF NP2 row cos K B2 X tbl2 i out2 Hr2 Hc2)
    as (x' & top2 & Hx' & _ & Hs2 & Hf2).
  rewrite Hx in Hx'. injection Hx' as <-.
  pose proof (selection_le Hs1 Hs2) as H12.
  pose proof (selection_le Hs2 Hs1) as H21.
  apply Forall2_nth_error_intro.
  - rewrite <- (Forall2_length Hf1), <- (Forall2_length Hf2).
    now rewrite (sel_length Hs1), (sel_length Hs2).
  - intros r e1 e2 He1 He2.
    destruct (Forall2_nth_error_r _ Hf1 He1) as (a & Ha & s1 & Hs1' & ->).
    destruct (Forall2_nth_error_r _ Hf2 He2) as (b & Hb & s2 & Hs2' & ->).
    simpl. apply feq_round4.
    destruct (Forall2_nth_error _ H12 Ha Hb) as (y1 & z1 & Hy1 & Hz1 & Hle1).
    destruct (Forall2_nth_error _ H21 Hb Ha) as (y2 & z2 & Hy2 & Hz2 & Hle2).
    split; congruence.
Qed.

Lemma neighbor_scores_determined_witness :
  similarity_loop (NP := ref_numpy Q_float) Qdot 2 500 four_rows = Ok four_rows_table /\
  similarity_loop (NP := ref_numpy Q_float) Qdot 2 1 four_rows = Ok four_rows_table /\
  nth_error four_rows_table 0 = Some (Some [(2, 0.6000%Q); (1, 0.6000%Q)]) /\
  Forall2 (fun e1 e2 : nat * Q => feq (snd e1) (snd e2))
          [(2, 0.6000%Q); (1, 0.6000%Q)] [(2, 0.6000%Q); (1, 0.6000%Q)].
Proof.
  assert (E : similarity_loop (NP := ref_numpy Q_float) Qdot 2 1 four_rows
              = Ok four_rows_table) by (vm_compute; reflexivity).
  split; [exact four_rows_run|]. split; [exact E|]. split; [reflexivity|].
  exact (@neighbor_scores_determined Q Q_float (ref_numpy Q_float) (ref_numpy Q_float)
           (list Q) Qdot 2 500 1 four_rows four_rows_table four_rows_table 0 _ _
           four_rows_run E eq_refl eq_refl).
Defined.

(** C2 as stated fails: rows 1 and 2 of [four_rows] are the same document,
    so they tie in the list of row 0, and the list names index 2 before
    index 1. *)
Lemma tie_not_in_index_order :
  exists tbl,
    similarity_loop (NP := ref_numpy Q_float) Qdot 2 500 four_rows = Ok tbl /\
    nth_error tbl 0 = Some (Some [(2, 0.6000%Q); (1, 0.6000%Q)]) /\
    ~ (forall a b sa sb rest,
         [(2, 0.6000%Q); (1, 0.6000%Q)] = (a, sa) :: (b, sb) :: rest ->
         feq sa sb -> a < b).
Proof.
  exists four_rows_table. split; [exact four_rows_run|]. split; [reflexivity|].
  intros H. specialize (H 2 1 _ _ [] eq_refl).
  assert (Hq : feq 0.6000%Q 0.6000%Q) by (split; reflexivity).
  specialize (H Hq). lia.
Qed.

(** C6.  The batch size does not affect the output: any two positive
    batch sizes, in particular 1 and N, give the same result, which is
    the table of the rows handled one by one in index order. *)
Theorem batch_size_irrelevant :
  forall (F : Type) (PF : PyFloat F) (NP : @Numpy F PF) (row : Type)
         (cos : row -> row -> F) (K B1 B2 : nat) (X : list row),
    0 < B1 -> 0 < B2 ->
    similarity_loop cos K B1 X = similarity_loop cos K B2 X /\
    similarity_loop cos K B1 X = rows_in_order cos K X.
Proof.
  intros F PF NP row cos K B1 B2 X H1 H2.
  rewrite !loop_rows_in_order by assumption. now split.
Qed.

Lemma batch_size_irrelevant_witness :
  0 < 1 /\ 0 < length four_rows /\
  similarity_loop (NP := ref_numpy Q_float) Qdot 2 1 four_rows =
  similarity_loop (NP := ref_numpy Q_float) Qdot 2 (length four_rows) four_rows.
Proof.
  split; [lia|]. split; [simpl; lia|].
  apply (@batch_size_irrelevant Q Q_float (ref_numpy Q_float) (list Q) Qdot
           2 1 (length four_rows) four_rows); simpl; lia.
Defined.

(** C7.  The result depends on the rows, [K] and the batch size only:
    running the batches in any order of completion gives the very table,
    or the very exception, of the loop as written. *)
Theorem batch_order_irrelevant :
  forall (F : Type) (PF : PyFloat F) (NP : @Numpy F PF) (row : Type)
         (cos : row -> row -> F) (K B : nat) (X : list row)
         (starts order : list nat),
    range_step (length X) B = Ok starts ->
    Permutation order starts ->
    run_batches cos K B X order = similarity_loop cos K B X.
Proof.
  intros F PF NP row cos K B X starts order Hs Hperm.
  unfold similarity_loop. rewrite Hs. simpl. rewrite !run_batches_fill.
  assert (Hp : Permutation (flat_map (batch_rows B X) order)
                           (flat_map (batch_rows B X) starts)).
  { now apply Permutation_flat_map. }
  assert (Hrng : forall l, Forall (fun g => g < length X) (flat_map (batch_rows B X) l)).
  { intros l. apply Forall_forall. intros g Hg.
    apply in_flat_map in Hg as (bs & _ & Hg). exact (@batch_rows_range row B X bs g Hg). }
  destruct (Nat.le_gt_cases (K + 1) (length X)) as [HK|HK].
  - destruct (@fill_lookup F PF NP row cos K X _ (repeat None (length X)) HK
                (repeat_length _ _) (Hrng order)) as (d1 & -> & _ & Hn1).
    destruct (@fill_lookup F PF NP row cos K X _ (repeat None (length X)) HK
                (repeat_length _ _) (Hrng starts)) as (d2 & -> & _ & Hn2).
    f_equal. apply nth_error_ext_eq. intros j. rewrite Hn1, Hn2.
    destruct (in_dec Nat.eq_dec j (flat_map (batch_rows B X) order)) as [I1|O1];
      destruct (in_dec Nat.eq_dec j (flat_map (batch_rows B X) starts)) as [I2|O2];
      try reflexivity.
    + elim O2. exact (Permutation_in _ Hp I1).
    + elim O1. exact (Permutation_in _ (Permutation_sym Hp) I2).
  - destruct (flat_map (batch_rows B X) starts) as [|g t] eqn:E2.
    + apply Permutation_sym, Permutation_nil in Hp. now rewrite Hp.
    + rewrite <- E2. rewrite !fill_raise; try reflexivity; try apply Hrng; try lia.
      * rewrite E2. discriminate.
      * intros E1. rewrite E1 in Hp. now apply Permutation_nil in Hp.
Qed.

Lemma batch_order_irrelevant_witness :
  range_step (length four_rows) 2 = Ok [0; 2] /\
  Permutation [2; 0] [0; 2] /\
  run_batches (NP := ref_numpy Q_float) Qdot 2 2 four_rows [2; 0] =
  similarity_loop (NP := ref_numpy Q_float) Qdot 2 2 four_rows.
Proof.
  split; [reflexivity|]. split; [apply perm_swap|].
  apply (@batch_order_irrelevant Q Q_float (ref_numpy Q_float) (list Q) Qdot
           2 2 four_rows [0; 2] [2; 0]); [reflexivity | apply perm_swap].
Defined.

(** ** What a returned list tells *)

Lemma top_similar_Ok (F : Type) (PF : PyFloat F) (NP : @Numpy F PF)
    (K : nat) (scores : list F) (i : nat) (out : list (nat * F)) :
  top_similar K scores i = Ok out ->
  K + 1 <= length scores /\
  exists top, selection scores K i top /\
    Forall2 (fun idx e => exists s, nth_error scores idx = Some s /\ e = (idx, round4 s))
            top out.
Proof.
  intros Hout.
  destruct (Nat.le_gt_cases (K + 1) (length scores)) as [HK|HK].
  - split; [exact HK|].
    destruct (@top_similar_run F PF NP K scores i HK) as (top & o & Ho & Hsel & Hf).
    rewrite Hout in Ho. injection Ho as <-. now exists top.
  - rewrite top_similar_raise in Hout; [discriminate | lia].
Qed.

(** * Feature documents *)

Module FeatureFacts.

Import Features.
Open Scope string_scope.

(** C10.  The feature document is the seven fields joined by single
    spaces, where the runtime token is "long" above 120 minutes, "medium"
    above 90 and up to 120, "short" up to 90, the rating token is
    "highly_rated" from 7.5, "moderately_rated" from 6.5 and below 7.5,
    "average_rated" below 6.5, and a missing runtime or rating gives the
    empty string. *)
Theorem bucket_thresholds :
  forall r : movie_row,
    exists runtime rating : string,
      create_content_features r =
        str_or_empty (genres r) ++ " " ++ str_or_empty (directors r) ++ " "
          ++ str_or_empty (writers r) ++ " " ++ str_or_empty (startYear r) ++ " "
          ++ runtime ++ " " ++ rating ++ " " ++ str_or_empty (tags r) /\
      match runtimeMinutes r with
      | Some m =>
          ((120 < m)%Q -> runtime = "long") /\
          ((90 < m)%Q /\ (m <= 120)%Q -> runtime = "medium") /\
          ((m <= 90)%Q -> runtime = "short")
      | None => runtime = ""
      end /\
      match averageRating r with
      | Some a =>
          ((75 # 10 <= a)%Q -> rating = "highly_rated") /\
          ((65 # 10 <= a)%Q /\ (a < 75 # 10)%Q -> rating = "moderately_rated") /\
          ((a < 65 # 10)%Q -> rating = "average_rated")
      | None => rating = ""
      end.
Proof.
  intros r. unfold create_content_features.
  eexists. eexists. split; [reflexivity|]. split.
  - destruct (runtimeMinutes r) as [m|]; [|reflexivity].
    destruct (Qle_bool m 120) eqn:E1; destruct (Qle_bool m 90) eqn:E2; simpl;
      try (apply Qle_bool_iff in E1); try (apply Qle_bool_iff in E2);
      repeat split; intros; try reflexivity; exfalso;
      try (assert (N1 : ~ (m <= 120)%Q)
             by (intros N; apply Qle_bool_iff in N; congruence));
      try (assert (N2 : ~ (m <= 90)%Q)
             by (intros N; apply Qle_bool_iff in N; congruence));
      Lqa.lra.
  - destruct (averageRating r) as [a|]; [|reflexivity].
    destruct (Qle_bool (75 # 10) a) eqn:E1; destruct (Qle_bool (65 # 10) a) eqn:E2; simpl;
      try (apply Qle_bool_iff in E1); try (apply Qle_bool_iff in E2);
      repeat split; intros; try reflexivity; exfalso;
      try (assert (N1 : ~ (75 # 10 <= a)%Q)
             by (intros N; apply Qle_bool_iff in N; congruence));
      try (assert (N2 : ~ (65 # 10 <= a)%Q)
             by (intros N; apply Qle_bool_iff in N; congruence));
      Lqa.lra.
Qed.

End FeatureFacts.

(** * TF-IDF rows *)

Module TfidfFacts.

Import Tfidf.

Open Scope R_scope.

Lemma sumsq_nonneg (r : list R) : 0 <= sumsq r.
Proof.
  induction r as [|x t IH]; simpl; [Lra.lra|].
  pose proof (Rle_0_sqr x) as Hx. unfold Rsqr in Hx. Lra.lra.
Qed.

Lemma sumsq_zeros (r : list R) : Forall (fun w => w = 0) r -> sumsq r = 0.
Proof.
  induction 1 as [|x t Hx _ IH]; simpl; [reflexivity|]. rewrite Hx, IH. Lra.lra.
Qed.

Lemma sumsq_In_pos (r : list R) (w : R) : In w r -> w <> 0 -> 0 < sumsq r.
Proof.
  induction r as [|x t IH]; simpl; [intros []|].
  intros [->|Hin] Hw.
  - pose proof (sumsq_nonneg t). pose proof (Rsqr_pos_lt w Hw) as Hp.
    unfold Rsqr in Hp. Lra.lra.
  - pose proof (IH Hin Hw). pose proof (Rle_0_sqr x) as Hx. unfold Rsqr in Hx. Lra.lra.
Qed.

Lemma sumsq_scale (r : list R) (n : R) :
  n <> 0 -> sumsq (map (fun x => x / n) r) = sumsq r / (n * n).
Proof.
  intros Hn. induction r as [|x t IH]; simpl.
  - unfold Rdiv. now rewrite Rmult_0_l.
  - rewrite IH. now field.
Qed.

Lemma normalize_zero (r : list R) :
  Forall (fun w => w = 0) r -> Forall (fun w => w = 0) (normalize r).
Proof.
  intros Hz. unfold normalize, l2norm. rewrite (sumsq_zeros Hz), sqrt_0.
  destruct (Req_dec_T 0 0) as [_|N]; [|now elim N].
  apply Forall_map. eapply Forall_impl; [|exact Hz].
  intros w ->. unfold Rdiv. apply Rmult_0_l.
Qed.

Lemma normalize_unit (r : list R) : sumsq r <> 0 -> l2norm (normalize r) = 1.
Proof.
  intros Hs. pose proof (sumsq_nonneg r) as Hn.
  assert (Hpos : 0 < sqrt (sumsq r)) by (apply sqrt_lt_R0; Lra.lra).
  unfold normalize, l2norm.
  destruct (Req_dec_T (sqrt (sumsq r)) 0) as [E|_]; [Lra.lra|].
  rewrite sumsq_scale by Lra.lra.
  rewrite sqrt_sqrt by exact Hn.
  replace (sumsq r / sumsq r) with 1 by (now field).
  apply sqrt_1.
Qed.

Lemma normalize_idem (r : list R) : normalize (normalize r) = normalize r.
Proof.
  destruct (Req_dec_T (sumsq r) 0) as [E|NE].
  - assert (Hz : Forall (fun w => w = 0) r).
    { clear -E. induction r as [|x t IH]; [constructor|]. simpl in E.
      pose proof (sumsq_nonneg t). pose proof (Rle_0_sqr x) as Hx. unfold Rsqr in Hx.
      constructor.
      - assert (Hxx : x * x = 0) by Lra.lra.
        apply Rmult_integral in Hxx. now destruct Hxx.
      - apply IH. Lra.lra. }
    pose proof (normalize_zero Hz) as Hz'.
    unfold normalize at 1. unfold l2norm. rewrite (sumsq_zeros Hz'), sqrt_0.
    destruct (Req_dec_T 0 0) as [_|N]; [|now elim N].
    rewrite <- (map_id (normalize r)) at 2. apply map_ext_Forall.
    eapply Forall_impl; [|exact Hz']. intros w ->. unfold Rdiv. apply Rmult_0_l.
  - unfold normalize at 1. rewrite (normalize_unit r NE).
    destruct (Req_dec_T 1 0) as [E|_]; [Lra.lra|].
    rewrite <- (map_id (normalize r)) at 2. apply map_ext. intros x. now field.
Qed.

Lemma dot_zeros_l (x y : list R) : Forall (fun w => w = 0) x -> dot x y = 0.
Proof.
  intros Hz. revert y; induction Hz as [|a t Ha _ IH]; intros y; [reflexivity|].
  destruct y as [|b u]; [reflexivity|]. unfold dot in *. simpl.
  rewrite IH, Ha. Lra.lra.
Qed.

Section VectorizerFacts.

Variable tokenize : string -> list string.
Variable stop_words : list string.

Local Notation "'analyze'" := (Tfidf.analyze tokenize stop_words).
Local Notation "'vocabulary'" := (Tfidf.vocabulary tokenize stop_words).
Local Notation "'tf'" := (Tfidf.tf tokenize stop_words).
Local Notation "'df'" := (Tfidf.df tokenize stop_words).
Local Notation "'idf'" := (Tfidf.idf tokenize stop_words).
Local Notation "'weights'" := (Tfidf.weights tokenize stop_words).
Local Notation "'fit_transform'" := (Tfidf.fit_transform tokenize stop_words).

Lemma df_le (t : string) (docs : list string) : (df t docs <= length docs)%nat.
Proof. unfold Tfidf.df. apply filter_length_le. Qed.

Lemma idf_ge_1 (t : string) (docs : list string) : 1 <= idf t docs.
Proof.
  unfold Tfidf.idf.
  pose proof (le_INR _ _ (df_le t docs)) as Hle.
  pose proof (pos_INR (df t docs)) as Hd.
  set (a := INR (length docs)) in *. set (b := INR (df t docs)) in *.
  assert (Hr : 1 <= (1 + a) / (1 + b)).
  { apply (Rmult_le_reg_r (1 + b)); [Lra.lra|].
    replace ((1 + a) / (1 + b) * (1 + b)) with (1 + a) by (field; Lra.lra). Lra.lra. }
  destruct Hr as [Hlt|<-].
  - pose proof (ln_increasing 1 _ Rlt_0_1 Hlt) as Hln. rewrite ln_1 in Hln. Lra.lra.
  - rewrite ln_1. Lra.lra.
Qed.

Lemma weights_zero (docs : list string) (d : string) :
  analyze d = [] -> Forall (fun w => w = 0) (weights docs d).
Proof.
  intros He. unfold Tfidf.weights. apply Forall_map, Forall_forall. intros t _.
  unfold Tfidf.tf. rewrite He. simpl. apply Rmult_0_l.
Qed.

Lemma weights_nonzero (docs : list string) (d : string) :
  In d docs -> analyze d <> [] -> sumsq (weights docs d) <> 0.
Proof.
  intros Hd Hne.
  destruct (analyze d) as [|t0 rest] eqn:Ha; [congruence|].
  assert (Hin : In t0 (analyze d)) by (rewrite Ha; now left).
  assert (Hv : In t0 (vocabulary docs)).
  { unfold Tfidf.vocabulary. apply nodup_In, in_concat.
    exists (analyze d). split; [|exact Hin]. apply in_map_iff. now exists d. }
  assert (Htf : (0 < tf t0 d)%nat).
  { unfold Tfidf.tf. now apply count_occ_In. }
  pose proof (idf_ge_1 t0 docs) as Hidf.
  pose proof (lt_0_INR _ Htf) as Hpos.
  assert (Hw : INR (tf t0 d) * idf t0 docs <> 0).
  { apply Rgt_not_eq. apply Rmult_lt_0_compat; Lra.lra. }
  apply Rgt_not_eq. apply (@sumsq_In_pos _ (INR (tf t0 d) * idf t0 docs)); [|exact Hw].
  unfold Tfidf.weights. apply in_map_iff. now exists t0.
Qed.

Lemma fit_transform_Ok (docs : list string) :
  vocabulary docs <> [] ->
  fit_transform docs = Ok (map (fun d => normalize (weights docs d)) docs).
Proof.
  intros Hv. unfold Tfidf.fit_transform. destruct (vocabulary docs); congruence.
Qed.

Lemma fit_transform_inv (docs : list string) (M : list (list R)) :
  fit_transform docs = Ok M ->
  M = map (fun d => normalize (weights docs d)) docs.
Proof.
  unfold Tfidf.fit_transform. destruct (vocabulary docs); [discriminate|].
  intros E. now injection E as <-.
Qed.

End VectorizerFacts.

End TfidfFacts.

(** * The vectorizer and the empty document: main results *)

Lemma loop_raises (F : Type) (PF : PyFloat F) (NP : @Numpy F PF) (row : Type)
    (cos : row -> row -> F) (K B : nat) (X : list row) :
  0 < B -> 0 < length X -> length X <= K ->
  similarity_loop cos K B X = Raise ValueError.
Proof.
  intros HB HN HK. rewrite loop_rows_in_order by exact HB. unfold rows_in_order.
  destruct (length X) as [|n] eqn:E; [lia|]. simpl.
  rewrite row_result_raise; [reflexivity | lia | lia].
Qed.

Module EngineFacts.

Import Tfidf TfidfFacts.

Open Scope R_scope.

(** C8 (amended).  Row [i] of the matrix is the normalised vector of the
    weights [tf * idf] with [idf = ln((1 + N) / (1 + df)) + 1].  A row
    whose document keeps at least one token has norm one; a row whose
    document keeps none is all zero, of norm zero.  In both cases the
    cosine similarity of two rows of the matrix is their dot product. *)
Theorem tfidf_rows :
  forall (tokenize : string -> list string) (stop_words : list string)
         (docs : list string) (M : list (list R)) (i : nat) (d : string)
         (r : list R),
    fit_transform tokenize stop_words docs = Ok M ->
    nth_error docs i = Some d ->
    nth_error M i = Some r ->
    r = normalize
          (map (fun t => INR (tf tokenize stop_words t d)
                         * (ln ((1 + INR (length docs))
                                / (1 + INR (df tokenize stop_words t docs))) + 1))
               (vocabulary tokenize stop_words docs)) /\
    (analyze tokenize stop_words d <> [] -> l2norm r = 1) /\
    (analyze tokenize stop_words d = [] -> Forall (fun w => w = 0) r) /\
    (forall r', In r' M -> cosine r r' = dot r r').
Proof.
  intros tokenize stop_words docs M i d r HM Hd Hr.
  apply fit_transform_inv in HM. subst M.
  rewrite nth_error_map, Hd in Hr. simpl in Hr. injection Hr as <-.
  split; [reflexivity|]. split; [|split].
  - intros Hne. apply normalize_unit, weights_nonzero; [|exact Hne].
    eapply nth_error_In; exact Hd.
  - intros He. now apply normalize_zero, weights_zero.
  - intros r' Hr'. apply in_map_iff in Hr' as (d' & <- & _).
    unfold cosine. now rewrite !normalize_idem.
Qed.

Lemma tfidf_rows_witness :
  exists M r,
    fit_transform split_blanks [] three_docs = Ok M /\
    nth_error three_docs 0 = Some "action hero"%string /\
    nth_error M 0 = Some r /\
    analyze split_blanks [] "action hero" <> [] /\
    l2norm r = 1.
Proof.
  assert (Hv : vocabulary split_blanks [] three_docs <> []) by (vm_compute; discriminate).
  pose proof (@fit_transform_Ok split_blanks [] three_docs Hv) as HM.
  assert (Ha : analyze split_blanks [] "action hero" <> []) by (vm_compute; discriminate).
  eexists. eexists. split; [exact HM|]. split; [reflexivity|]. split; [reflexivity|].
  split; [exact Ha|].
  exact (proj1 (proj2 (@tfidf_rows split_blanks [] three_docs _ 0 _ _
                         HM eq_refl eq_refl)) Ha).
Defined.

(** C8 as stated fails: the row of an empty document has norm zero, not
    one. *)
Lemma empty_document_row_norm_zero :
  exists M r,
    fit_transform split_blanks [] empty_first = Ok M /\
    nth_error M 0 = Some r /\
    l2norm r <> 1.
Proof.
  assert (Hv : vocabulary split_blanks [] empty_first <> []) by (vm_compute; discriminate).
  pose proof (@fit_transform_Ok split_blanks [] empty_first Hv) as HM.
  eexists. eexists. split; [exact HM|]. split; [reflexivity|].
  assert (Hz : Forall (fun w => w = 0)
                 (normalize (weights split_blanks [] empty_first ""))).
  { apply normalize_zero, weights_zero. reflexivity. }
  unfold l2norm. rewrite (sumsq_zeros Hz), sqrt_0. Lra.lra.
Qed.

(** C9 (amended).  In a corpus of at least [K + 1] documents with a
    non-empty vocabulary, a document that keeps no token yields an
    all-zero row whose similarity to every row is 0; the run raises
    nothing, and that entry's Neighbor List has [K] entries, all of score
    0. *)
Theorem empty_document_neighbors :
  forall (tokenize : string -> list string) (stop_words : list string)
         (NP : @Numpy R R_float) (K B : nat) (docs : list string)
         (i : nat) (d : string),
    (0 < B)%nat -> (K + 1 <= length docs)%nat ->
    nth_error docs i = Some d ->
    analyze tokenize stop_words d = [] ->
    vocabulary tokenize stop_words docs <> [] ->
    exists M r tbl out,
      fit_transform tokenize stop_words docs = Ok M /\
      nth_error M i = Some r /\
      Forall (fun w => w = 0) r /\
      (forall r', In r' M -> cosine r r' = 0) /\
      precompute tokenize stop_words K B docs = Ok tbl /\
      nth_error tbl i = Some (Some out) /\
      length out = K /\
      Forall (fun e => snd e = 0) out.
Proof.
  intros tokenize stop_words NP K B docs i d HB HK Hd He Hv.
  set (M := map (fun d => normalize (weights tokenize stop_words docs d)) docs).
  set (r := normalize (weights tokenize stop_words docs d)).
  assert (HM : fit_transform tokenize stop_words docs = Ok M)
    by (now apply fit_transform_Ok).
  assert (Hr : nth_error M i = Some r).
  { unfold M. now rewrite nth_error_map, Hd. }
  assert (Hz : Forall (fun w => w = 0) r)
    by (now apply normalize_zero, weights_zero).
  assert (Hcos : forall r', cosine r r' = 0).
  { intros r'. unfold cosine. apply dot_zeros_l. now apply normalize_zero. }
  assert (HlenM : length M = length docs) by (unfold M; apply length_map).
  destruct (@loop_finishes R R_float NP (list R) cosine K B M HB)
    as (tbl & Hrun & Hlen); [lia|].
  destruct (nth_error tbl i) as [c|] eqn:Hc;
    [|apply nth_error_None in Hc;
      assert (i < length docs)%nat by (apply nth_error_Some; congruence); lia].
  destruct (@loop_cell R R_float NP (list R) cosine K B M tbl i c Hrun Hc)
    as (x & out & -> & Hx & Hout & _).
  rewrite Hr in Hx. injection Hx as <-.
  destruct (@top_similar_Ok R R_float NP K _ i out Hout) as (_ & top & Hsel & Hf).
  exists M, r, tbl, out.
  split; [exact HM|]. split; [exact Hr|]. split; [exact Hz|].
  split; [intros r' _; apply Hcos|].
  split; [unfold precompute; rewrite HM; exact Hrun|].
  split; [exact Hc|]. split.
  - now rewrite <- (Forall2_length Hf), (sel_length Hsel).
  - apply Forall_forall. intros e Hin.
    apply In_nth_error in Hin as (q & Hq).
    destruct (Forall2_nth_error_r _ Hf Hq) as (a & _ & s & Hs & ->).
    simpl. rewrite nth_error_map in Hs.
    destruct (nth_error M a) as [r'|]; [|discriminate].
    simpl in Hs. injection Hs as <-. rewrite Hcos. apply Rround4_0.
Qed.

Lemma empty_document_neighbors_witness :
  (0 < 500)%nat /\ (1 + 1 <= length empty_first)%nat /\
  nth_error empty_first 0 = Some ""%string /\
  analyze split_blanks [] "" = [] /\
  vocabulary split_blanks [] empty_first <> [] /\
  exists M r tbl out,
    fit_transform split_blanks [] empty_first = Ok M /\
    nth_error M 0 = Some r /\
    Forall (fun w => w = 0) r /\
    (forall r', In r' M -> cosine r r' = 0) /\
    precompute (NP := ref_numpy R_float) split_blanks [] 1 500 empty_first = Ok tbl /\
    nth_error tbl 0 = Some (Some out) /\
    length out = 1%nat /\
    Forall (fun e => snd e = 0) out.
Proof.
  assert (Hv : vocabulary split_blanks [] empty_first <> []) by (vm_compute; discriminate).
  split; [lia|]. split; [simpl; lia|]. split; [reflexivity|]. split; [reflexivity|].
  split; [exact Hv|].
  apply (@empty_document_neighbors split_blanks [] (ref_numpy R_float) 1 500
           empty_first 0 ""%string); [lia | simpl; lia | reflexivity | reflexivity | exact Hv].
Defined.

(** C9 as stated fails: with two documents, one of them empty, and the
    script's [K = 50] the run stops with a [ValueError] at the first row
    instead of continuing. *)
Lemma empty_document_small_corpus_raises :
  (1 < length empty_first)%nat /\
  analyze split_blanks [] "" = [] /\
  precompute (NP := ref_numpy R_float) split_blanks [] 50 500 empty_first
    = Raise ValueError.
Proof.
  split; [simpl; lia|]. split; [reflexivity|].
  assert (Hv : vocabulary split_blanks [] empty_first <> []) by (vm_compute; discriminate).
  unfold precompute. rewrite (@fit_transform_Ok split_blanks [] empty_first Hv). simpl.
  apply loop_raises; [lia | simpl; lia | simpl; lia].
Qed.

End EngineFacts.

(** * Name resolution *)

Module NamesFacts.

Import Names.

(** ** Sets and dicts *)

Lemma existsb_eqb_In (x : string) (s : list string) :
  existsb (String.eqb x) s = true <-> In x s.
Proof.
  rewrite existsb_exists. split.
  - intros (y & Hy & E). apply String.eqb_eq in E. now subst.
  - intros Hx. exists x. split; [exact Hx | apply String.eqb_refl].
Qed.

Lemma set_add_In (x y : string) (s : list string) :
  In y (set_add x s) <-> y = x \/ In y s.
Proof.
  unfold set_add. destruct (existsb (String.eqb x) s) eqn:E.
  - apply existsb_eqb_In in E. split; [now right | intros [->|H]; assumption].
  - rewrite in_app_iff. simpl.
    split; [intros [H|[<-|[]]]; auto | intros [->|H]; auto].
Qed.

Lemma set_add_NoDup (x : string) (s : list string) : NoDup s -> NoDup (set_add x s).
Proof.
  intros Hs. unfold set_add. destruct (existsb (String.eqb x) s) eqn:E; [exact Hs|].
  apply NoDup_app; [exact Hs | repeat constructor; intros [] |].
  intros y Hy [<-|[]]. apply existsb_eqb_In in Hy. congruence.
Qed.

Lemma add_cell_ids_In (needed : list string) (val y : string) :
  In y (add_cell_ids needed val) <-> In y needed \/ In y (cell_ids val).
Proof.
  unfold add_cell_ids, cell_ids. revert needed.
  induction (split ","%char val) as [|p ps IH]; intros needed; simpl.
  - tauto.
  - rewrite IH, set_add_In. split; intros H; intuition auto.
Qed.

Lemma add_cell_ids_NoDup (needed : list string) (val : string) :
  NoDup needed -> NoDup (add_cell_ids needed val).
Proof.
  unfold add_cell_ids. revert needed.
  induction (split ","%char val) as [|p ps IH]; intros needed Hn; simpl; [exact Hn|].
  apply IH. now apply set_add_NoDup.
Qed.

Lemma dropna_In (column : list (option string)) (v : string) :
  In v (dropna column) <-> In (Some v) column.
Proof.
  unfold dropna. rewrite in_flat_map. split.
  - intros ([w|] & Hc & Hv); simpl in Hv; [|contradiction].
    destruct Hv as [<-|[]]. exact Hc.
  - intros Hc. exists (Some v). split; [exact Hc | now left].
Qed.

Lemma add_column_ids_In (needed : list string) (column : list (option string))
    (y : string) :
  In y (add_column_ids needed column) <->
  In y needed \/ exists v, In (Some v) column /\ In y (cell_ids v).
Proof.
  unfold add_column_ids.
  assert (G : forall vals n,
             In y (fold_left add_cell_ids vals n) <->
             In y n \/ exists v, In v vals /\ In y (cell_ids v)).
  { induction vals as [|v vs IH]; intros n; simpl.
    - split; [now left | intros [H|(v & [] & _)]; exact H].
    - rewrite IH, add_cell_ids_In. split.
      + intros [[H|H]|(w & Hw & Hy)]; [now left | right; exists v; auto |
                                        right; exists w; auto].
      + intros [H|(w & [<-|Hw] & Hy)]; [now left; left | now left; right |
                                         right; exists w; auto]. }
  rewrite G. split; intros [H|(v & Hv & Hy)]; auto; right; exists v;
    (split; [now apply dropna_In | exact Hy]).
Qed.

Lemma add_column_ids_NoDup (needed : list string) (column : list (option string)) :
  NoDup needed -> NoDup (add_column_ids needed column).
Proof.
  unfold add_column_ids. revert needed.
  induction (dropna column) as [|v vs IH]; intros needed Hn; simpl; [exact Hn|].
  apply IH. now apply add_cell_ids_NoDup.
Qed.

Lemma dict_keys_set (V : Type) (k k' : string) (v : V) (d : list (string * V)) :
  In k' (map fst (dict_set k v d)) <-> k' = k \/ In k' (map fst d).
Proof.
  induction d as [|[k0 v0] t IH]; simpl.
  - intuition auto.
  - destruct (String.eqb k k0) eqn:E; simpl.
    + apply String.eqb_eq in E. subst k0. intuition auto.
    + rewrite IH. intuition auto.
Qed.

Lemma dict_set_NoDup (V : Type) (k : string) (v : V) (d : list (string * V)) :
  NoDup (map fst d) -> NoDup (map fst (dict_set k v d)).
Proof.
  induction d as [|[k0 v0] t IH]; simpl; intros Hd.
  - repeat constructor. intros [].
  - apply NoDup_cons_iff in Hd as [Hk0 Ht].
    destruct (String.eqb k k0) eqn:E; simpl.
    + apply String.eqb_eq in E. subst k0. now constructor.
    + constructor; [|now apply IH].
      rewrite dict_keys_set. intros [->|H]; [|contradiction].
      now rewrite String.eqb_refl in E.
Qed.

Lemma dict_get_set (V : Type) (k k' : string) (v : V) (d : list (string * V)) :
  dict_get k' (dict_set k v d) = if String.eqb k' k then Some v else dict_get k' d.
Proof.
  induction d as [|[k0 v0] t IH]; simpl.
  - destruct (String.eqb k' k); reflexivity.
  - destruct (String.eqb k k0) eqn:E; simpl.
    + apply String.eqb_eq in E. subst k0. now destruct (String.eqb k' k).
    + rewrite IH. destruct (String.eqb k' k0) eqn:E0; [|reflexivity].
      apply String.eqb_eq in E0. subst k0.
      destruct (String.eqb k' k) eqn:E1; [|reflexivity].
      apply String.eqb_eq in E1. subst k'. now rewrite String.eqb_refl in E.
Qed.

Lemma dict_get_keys (V : Type) (k : string) (d : list (string * V)) :
  In k (map fst d) <-> exists v, dict_get k d = Some v.
Proof.
  induction d as [|[k0 v0] t IH]; simpl.
  - split; [intros [] | intros (v & Hv); discriminate].
  - destruct (String.eqb k k0) eqn:E.
    + apply String.eqb_eq in E. subst k0. split; [now exists v0 | now left].
    + rewrite <- IH. split; [intros [->|H]; [|exact H] | now right].
      now rewrite String.eqb_refl in E.
Qed.

(** ** One chunk of the names file *)

Lemma add_chunk_keys (needed : list string) (d : list (string * option string))
    (chunk : list name_row) (k : string) :
  In k (map fst (add_chunk needed d chunk)) <->
  In k (map fst d) \/ (In k needed /\ names_id chunk k).
Proof.
  unfold add_chunk, names_id. revert d.
  induction chunk as [|row rows IH]; intros d; simpl.
  - split; [now left | intros [H|(_ & row & [] & _)]; exact H].
  - destruct (isin needed (nconst row)) eqn:Hm; simpl.
    + destruct (nconst row) as [k0|] eqn:Hk; [|discriminate]. simpl in Hm.
      apply existsb_eqb_In in Hm.
      rewrite IH, dict_keys_set. split.
      * intros [[->|H]|(Hn & row' & Hr & Hk')].
        -- right. split; [exact Hm|]. exists row. auto.
        -- now left.
        -- right. split; [exact Hn|]. exists row'. auto.
      * intros [H|(Hn & row' & [<-|Hr] & Hk')].
        -- left. now right.
        -- left. left. congruence.
        -- right. split; [exact Hn|]. exists row'. auto.
    + rewrite IH. split.
      * intros [H|(Hn & row' & Hr & Hk')]; [now left|].
        right. split; [exact Hn|]. exists row'. auto.
      * intros [H|(Hn & row' & [<-|Hr] & Hk')]; [now left | |].
        -- rewrite Hk' in Hm. simpl in Hm.
           apply existsb_eqb_In in Hn. congruence.
        -- right. split; [exact Hn|]. exists row'. auto.
Qed.

Lemma add_chunk_NoDup (needed : list string) (d : list (string * option string))
    (chunk : list name_row) :
  NoDup (map fst d) -> NoDup (map fst (add_chunk needed d chunk)).
Proof.
  unfold add_chunk. revert d.
  induction (filter (fun row => isin needed (nconst row)) chunk) as [|row rows IH];
    intros d Hd; simpl; [exact Hd|].
  apply IH. destruct (nconst row); [now apply dict_set_NoDup | exact Hd].
Qed.

Lemma add_chunk_get (needed : list string) (d : list (string * option string))
    (chunk : list name_row) (k : string) (v : option string) :
  dict_get k (add_chunk needed d chunk) = Some v ->
  dict_get k d = Some v \/
  exists row, In row chunk /\ nconst row = Some k /\ primaryName row = v.
Proof.
  unfold add_chunk. revert d.
  induction chunk as [|row rows IH]; intros d; simpl; [now left|].
  destruct (isin needed (nconst row)); simpl.
  - intros H. apply IH in H as [H|(row' & Hr & Hk & Hv)].
    + destruct (nconst row) as [k0|] eqn:Hk0; [|now left].
      rewrite dict_get_set in H. destruct (String.eqb k k0) eqn:E; [|now left].
      apply String.eqb_eq in E. subst k0. injection H as <-.
      right. exists row. auto.
    + right. exists row'. auto.
  - intros H. apply IH in H as [H|(row' & Hr & Hk & Hv)]; [now left|].
    right. exists row'. auto.
Qed.

(** ** The loop over the chunks *)

Section Build.

Variable needed : list string.

Lemma build_keys (chunks : list (list name_row)) (d : list (string * option string)) :
  NoDup (map fst d) -> incl (map fst d) needed ->
  NoDup (map fst (build_name_lookup needed chunks d)) /\
  incl (map fst (build_name_lookup needed chunks d)) needed.
Proof.
  revert d; induction chunks as [|chunk rest IH]; intros d Hnd Hincl; simpl; [auto|].
  assert (Hnd' : NoDup (map fst (add_chunk needed d chunk)))
    by (now apply add_chunk_NoDup).
  assert (Hincl' : incl (map fst (add_chunk needed d chunk)) needed).
  { intros k Hk. apply add_chunk_keys in Hk as [Hk|[Hk _]]; auto. }
  destruct (length needed <=? length (add_chunk needed d chunk)); auto.
Qed.

Lemma build_get (chunks : list (list name_row)) (d : list (string * option string))
    (k : string) (v : option string) :
  dict_get k (build_name_lookup needed chunks d) = Some v ->
  dict_get k d = Some v \/
  exists chunk row, In chunk chunks /\ In row chunk /\
                    nconst row = Some k /\ primaryName row = v.
Proof.
  revert d; induction chunks as [|chunk rest IH]; intros d; simpl; [now left|].
  assert (G : dict_get k (add_chunk needed d chunk) = Some v ->
              dict_get k d = Some v \/
              exists chunk0 row, (chunk = chunk0 \/ In chunk0 rest) /\ In row chunk0 /\
                                 nconst row = Some k /\ primaryName row = v).
  { intros H. apply add_chunk_get in H as [H|(row & Hr & Hk & Hv)]; [now left|].
    right. exists chunk, row. auto. }
  destruct (length needed <=? length (add_chunk needed d chunk)); [exact G|].
  intros H. apply IH in H as [H|(chunk0 & row & Hc & Hr & Hk & Hv)]; [now apply G|].
  right. exists chunk0, row. auto.
Qed.

Lemma build_covers (chunks : list (list name_row)) (d : list (string * option string))
    (k : string) :
  NoDup (map fst d) -> incl (map fst d) needed ->
  In k needed ->
  In k (map fst d) \/ (exists chunk, In chunk chunks /\ names_id chunk k) ->
  In k (map fst (build_name_lookup needed chunks d)).
Proof.
  revert d; induction chunks as [|chunk rest IH];
    intros d Hnd Hincl Hk Hsrc; simpl.
  - destruct Hsrc as [H|(chunk & [] & _)]. exact H.
  - assert (Hnd' : NoDup (map fst (add_chunk needed d chunk)))
      by (now apply add_chunk_NoDup).
    assert (Hincl' : incl (map fst (add_chunk needed d chunk)) needed).
    { intros k' Hk'. apply add_chunk_keys in Hk' as [Hk'|[Hk' _]]; auto. }
    destruct (length needed <=? length (add_chunk needed d chunk)) eqn:E.
    + apply Nat.leb_le in E.
      apply (@NoDup_length_incl _ (map fst (add_chunk needed d chunk)) needed Hnd');
        [now rewrite length_map | exact Hincl' | exact Hk].
    + apply IH; try assumption.
      destruct Hsrc as [H|(chunk0 & [<-|Hc] & Hid)].
      * left. apply add_chunk_keys. now left.
      * left. apply add_chunk_keys. right. now split.
      * right. now exists chunk0.
Qed.

End Build.

Lemma needed_ids_In (rows : list Features.movie_row) (id : string) :
  In id (needed_ids rows) <->
  exists r cell, In r rows /\
                 (Features.directors r = Some cell \/ Features.writers r = Some cell) /\
                 In id (cell_ids cell).
Proof.
  unfold needed_ids. simpl. rewrite !add_column_ids_In. split.
  - intros [[[]|(v & Hv & Hid)]|(v & Hv & Hid)];
      apply in_map_iff in Hv as (r & Hr & Hin); exists r, v; auto.
  - intros (r & cell & Hin & [Hd|Hw] & Hid).
    + left. right. exists cell. split; [|exact Hid]. apply in_map_iff. now exists r.
    + right. exists cell. split; [|exact Hid]. apply in_map_iff. now exists r.
Qed.

Lemma needed_ids_NoDup (rows : list Features.movie_row) : NoDup (needed_ids rows).
Proof.
  unfold needed_ids. simpl. do 2 apply add_column_ids_NoDup. constructor.
Qed.

(** ** Strings *)

Lemma lstrip_all_space (s : string) : all_space s = true -> lstrip s = EmptyString.
Proof.
  induction s as [|c rest IH]; simpl; [reflexivity|].
  intros H. apply andb_true_iff in H as [Hc Hr]. rewrite Hc. now apply IH.
Qed.

Lemma strip_all_space (s : string) : all_space s = true -> strip s = EmptyString.
Proof. intros H. unfold strip. now rewrite lstrip_all_space. Qed.

Lemma all_str_Some (items : list (option string)) (l : list string) :
  all_str items = Some l <-> items = map Some l.
Proof.
  revert l; induction items as [|[x|] t IH]; intros l; simpl.
  - split; [intros E; injection E as <-; reflexivity | now destruct l].
  - destruct (all_str t) as [l'|] eqn:E.
    + split.
      * intros H. injection H as <-. simpl. f_equal. now apply IH.
      * destruct l as [|y u]; [discriminate|]. simpl. intros H.
        injection H as -> Ht. apply IH in Ht. congruence.
    + split; [discriminate|]. destruct l as [|y u]; [discriminate|]. simpl.
      intros H. injection H as _ Ht. apply IH in Ht. discriminate.
  - split; [discriminate | now destruct l].
Qed.

Lemma all_str_None (items : list (option string)) :
  all_str items = None <-> In None items.
Proof.
  induction items as [|[x|] t IH]; simpl.
  - split; [discriminate | intros []].
  - destruct (all_str t) as [l'|].
    + split; [discriminate|]. intros [H|H]; [discriminate|]. now apply IH in H.
    + split; [|reflexivity]. intros _. right. now apply IH.
  - split; [now left | reflexivity].
Qed.

Lemma all_str_total (items : list (option string)) :
  Forall (fun c => c <> None) items -> exists l, all_str items = Some l.
Proof.
  intros H. destruct (all_str items) as [l|] eqn:E; [now exists l|].
  apply all_str_None in E. rewrite Forall_forall in H. now elim (H None E).
Qed.

(** ** The ids that are needed *)

(** X1.  [needed_ids] holds no id twice, and holds exactly the trimmed
    comma-separated pieces of the directors and writers cells that are
    present. *)
Theorem needed_ids_exact :
  forall rows : list Features.movie_row,
    NoDup (needed_ids rows) /\
    forall id,
      In id (needed_ids rows) <->
      exists r cell, In r rows /\
                     (Features.directors r = Some cell \/
                      Features.writers r = Some cell) /\
                     In id (cell_ids cell).
Proof.
  intros rows. split; [apply needed_ids_NoDup | apply needed_ids_In].
Qed.

(** ** The lookup table *)

(** X2.  The lookup never holds a name that is not needed: its keys are
    distinct needed ids, so it never has more entries than there are
    needed ids, however large the names file is. *)
Theorem name_lookup_only_needed :
  forall (rows : list Features.movie_row) (chunks : list (list name_row)),
    NoDup (map fst (name_lookup rows chunks)) /\
    incl (map fst (name_lookup rows chunks)) (needed_ids rows) /\
    length (name_lookup rows chunks) <= length (needed_ids rows).
Proof.
  intros rows chunks. unfold name_lookup.
  destruct (@build_keys (needed_ids rows) chunks []) as [Hnd Hincl];
    [constructor | intros k [] |].
  split; [exact Hnd|]. split; [exact Hincl|].
  rewrite <- (length_map fst). now apply NoDup_incl_length.
Qed.

Lemma lookup_entry_in_file (rows : list Features.movie_row)
    (chunks : list (list name_row)) (k : string) (v : option string) :
  dict_get k (name_lookup rows chunks) = Some v ->
  exists chunk row, In chunk chunks /\ In row chunk /\
                    nconst row = Some k /\ primaryName row = v.
Proof.
  intros H. unfold name_lookup in H.
  apply build_get in H as [H|H]; [discriminate | exact H].
Qed.

Lemma lookup_covers_file (rows : list Features.movie_row)
    (chunks : list (list name_row)) (k : string) :
  In k (needed_ids rows) ->
  (exists chunk, In chunk chunks /\ names_id chunk k) ->
  exists v, dict_get k (name_lookup rows chunks) = Some v.
Proof.
  intros Hk Hsrc. apply dict_get_keys. unfold name_lookup.
  apply build_covers; [constructor | intros k' [] | exact Hk | now right].
Qed.

(** X3.  Every entry of the lookup is a row of the names file: the key is
    the row's [nconst], the value its [primaryName]. *)
Theorem name_lookup_from_file :
  forall (rows : list Features.movie_row) (chunks : list (list name_row))
         (k : string) (v : option string),
    dict_get k (name_lookup rows chunks) = Some v ->
    exists chunk row, In chunk chunks /\ In row chunk /\
                      nconst row = Some k /\ primaryName row = v.
Proof.
  intros rows chunks k v H. exact (lookup_entry_in_file _ _ _ H).
Qed.

Lemma name_lookup_from_file_witness :
  dict_get "nm2"%string (name_lookup sample_movies sample_chunks)
    = Some (Some "Bo Diaz"%string) /\
  exists chunk row, In chunk sample_chunks /\ In row chunk /\
                    nconst row = Some "nm2"%string /\
                    primaryName row = Some "Bo Diaz"%string.
Proof.
  assert (E : dict_get "nm2"%string (name_lookup sample_movies sample_chunks)
              = Some (Some "Bo Diaz"%string)) by (vm_compute; reflexivity).
  split; [exact E|].
  exact (@name_lookup_from_file sample_movies sample_chunks _ _ E).
Defined.

(** X4.  The early exit loses nothing: every needed id that some row of the
    names file is about, in whichever chunk, read or not, has an entry in
    the lookup when the loop is over. *)
Theorem name_lookup_covers :
  forall (rows : list Features.movie_row) (chunks : list (list name_row))
         (k : string) (chunk : list name_row) (row : name_row),
    In k (needed_ids rows) ->
    In chunk chunks -> In row chunk -> nconst row = Some k ->
    exists v, dict_get k (name_lookup rows chunks) = Some v.
Proof.
  intros rows chunks k chunk row Hk Hc Hr Hn.
  apply lookup_covers_file; [exact Hk|].
  exists chunk. split; [exact Hc|]. now exists row.
Qed.

Lemma name_lookup_covers_witness :
  In "nm3"%string (needed_ids sample_movies) /\
  exists v, dict_get "nm3"%string (name_lookup sample_movies sample_chunks) = Some v.
Proof.
  assert (Hk : In "nm3"%string (needed_ids sample_movies))
    by (vm_compute; right; right; now left).
  split; [exact Hk|].
  apply (@name_lookup_covers sample_movies sample_chunks "nm3"%string
           [ {| nconst := Some "nm3"%string; primaryName := Some "Cy Moss"%string |} ]
           {| nconst := Some "nm3"%string; primaryName := Some "Cy Moss"%string |} Hk).
  - right. right. now left.
  - now left.
  - reflexivity.
Defined.

(** ** [resolve_names] *)

(** X5.  A missing cell and a cell made of whitespace only resolve to the
    empty string, whatever the lookup holds. *)
Theorem resolve_names_blank :
  forall (lookup : list (string * option string)) (cell : option string),
    (cell = None \/ exists s, cell = Some s /\ all_space s = true) ->
    resolve_names lookup cell = Returns EmptyString.
Proof.
  intros lookup cell [->|(s & -> & Hs)]; [reflexivity|].
  unfold resolve_names. now rewrite (strip_all_space s Hs).
Qed.

Lemma resolve_names_blank_witness :
  (Some "  "%string = None \/
   exists s, Some "  "%string = Some s /\ all_space s = true) /\
  resolve_names (name_lookup sample_movies sample_chunks) (Some "  "%string)
    = Returns EmptyString.
Proof.
  assert (H : Some "  "%string = None \/
              exists s, Some "  "%string = Some s /\ all_space s = true)
    by (right; exists "  "%string; split; reflexivity).
  split; [exact H|].
  exact (@resolve_names_blank (name_lookup sample_movies sample_chunks) _ H).
Defined.

Lemma resolve_names_TypeError (lookup : list (string * option string))
    (cell : option string) :
  resolve_names lookup cell = TypeError <->
  exists s, cell = Some s /\ strip s <> EmptyString /\
            exists id, In id (cell_ids s) /\ dict_get id lookup = Some None.
Proof.
  unfold resolve_names. split.
  - destruct cell as [s|]; [|discriminate].
    destruct (String.eqb (strip s) EmptyString) eqn:E; [discriminate|].
    destruct (all_str (map (get_name lookup) (cell_ids s))) eqn:Ha; [discriminate|].
    intros _. exists s. split; [reflexivity|]. split.
    + intros H. rewrite H in E. discriminate.
    + apply all_str_None, in_map_iff in Ha as (id & Hg & Hid).
      exists id. split; [exact Hid|]. unfold get_name in Hg.
      destruct (dict_get id lookup) as [v|]; [now subst | discriminate].
  - intros (s & -> & Hne & id & Hid & Hg).
    destruct (String.eqb (strip s) EmptyString) eqn:E;
      [apply String.eqb_eq in E; contradiction|].
    assert (Hn : In None (map (get_name lookup) (cell_ids s))).
    { apply in_map_iff. exists id. split; [|exact Hid]. unfold get_name. now rewrite Hg. }
    apply all_str_None in Hn. now rewrite Hn.
Qed.

(** X6.  [resolve_names] raises exactly when the cell is not blank and one
    of its ids is in the lookup with a missing name: [", ".join] then
    meets an item that is not a string. *)
Theorem resolve_names_raises_iff :
  forall (lookup : list (string * option string)) (cell : option string),
    resolve_names lookup cell = TypeError <->
    exists s, cell = Some s /\ strip s <> EmptyString /\
              exists id, In id (cell_ids s) /\ dict_get id lookup = Some None.
Proof.
  intros lookup cell. apply resolve_names_TypeError.
Qed.

(** X7.  Ids that the lookup does not know pass through unchanged: when
    none of the ids of a cell is in the lookup, the result is the trimmed
    ids joined by a comma and a blank. *)
Theorem resolve_names_unknown_ids :
  forall (lookup : list (string * option string)) (s : string),
    strip s <> EmptyString ->
    (forall id, In id (cell_ids s) -> dict_get id lookup = None) ->
    resolve_names lookup (Some s) = Returns (join ", "%string (cell_ids s)).
Proof.
  intros lookup s Hne Hun. unfold resolve_names.
  destruct (String.eqb (strip s) EmptyString) eqn:E;
    [apply String.eqb_eq in E; contradiction|].
  assert (Hm : map (get_name lookup) (cell_ids s) = map Some (cell_ids s)).
  { apply map_ext_in. intros id Hid. unfold get_name. now rewrite (Hun id Hid). }
  apply all_str_Some in Hm. now rewrite Hm.
Qed.

Lemma resolve_names_unknown_ids_witness :
  strip "nm7 ,nm8"%string <> EmptyString /\
  (forall id, In id (cell_ids "nm7 ,nm8"%string) ->
              dict_get id (name_lookup sample_movies sample_chunks) = None) /\
  resolve_names (name_lookup sample_movies sample_chunks) (Some "nm7 ,nm8"%string)
    = Returns (join ", "%string (cell_ids "nm7 ,nm8"%string)).
Proof.
  assert (H1 : strip "nm7 ,nm8"%string <> EmptyString) by (vm_compute; discriminate).
  assert (H2 : forall id, In id (cell_ids "nm7 ,nm8"%string) ->
                 dict_get id (name_lookup sample_movies sample_chunks) = None).
  { intros id [<-|[<-|[]]]; vm_compute; reflexivity. }
  split; [exact H1|]. split; [exact H2|].
  exact (@resolve_names_unknown_ids (name_lookup sample_movies sample_chunks) _ H1 H2).
Defined.

(** ** Lines 36-68 together *)

(** X8.  When no row of the names file has a missing name, resolving the
    directors and writers cells of the movies with the lookup built for
    them never raises. *)
Theorem resolved_columns_return :
  forall (rows : list Features.movie_row) (chunks : list (list name_row))
         (r : Features.movie_row),
    (forall chunk row, In chunk chunks -> In row chunk -> primaryName row <> None) ->
    In r rows ->
    exists d w,
      resolve_names (name_lookup rows chunks) (Features.directors r) = Returns d /\
      resolve_names (name_lookup rows chunks) (Features.writers r) = Returns w.
Proof.
  intros rows chunks r Hfile Hr.
  assert (G : forall cell, exists t, resolve_names (name_lookup rows chunks) cell = Returns t).
  { intros cell.
    destruct (resolve_names (name_lookup rows chunks) cell) as [t|] eqn:E; [now exists t|].
    apply resolve_names_TypeError in E as (s & _ & _ & id & _ & Hg).
    apply lookup_entry_in_file in Hg as (chunk & row & Hc & Hrow & _ & Hv).
    now elim (Hfile chunk row Hc Hrow). }
  destruct (G (Features.directors r)) as [d Hd].
  destruct (G (Features.writers r)) as [w Hw].
  now exists d, w.
Qed.

Lemma sample_chunks_named :
  forall chunk row, In chunk sample_chunks -> In row chunk -> primaryName row <> None.
Proof.
  intros chunk row Hc Hr. unfold sample_chunks in Hc. simpl in Hc.
  repeat (destruct Hc as [<-|Hc];
          [simpl in Hr; repeat (destruct Hr as [<-|Hr]; [discriminate|]);
           contradiction|]).
  contradiction.
Qed.

Lemma resolved_columns_return_witness :
  exists d w,
    resolve_names (name_lookup sample_movies sample_chunks)
                  (Some "nm1,nm2"%string) = Returns d /\
    resolve_names (name_lookup sample_movies sample_chunks)
                  (Some "nm2, nm3"%string) = Returns w.
Proof.
  apply (@resolved_columns_return sample_movies sample_chunks
           (nth 0 sample_movies
                {| Features.directors := None; Features.writers := None;
                   Features.genres := None; Features.startYear := None;
                   Features.tags := None; Features.runtimeMinutes := None;
                   Features.averageRating := None |}) sample_chunks_named).
  now left.
Defined.

Lemma map_Some_Forall2 (A : Type) (f : A -> option string) (P : A -> string -> Prop)
    (ids : list A) (l : list string) :
  map f ids = map Some l ->
  (forall id name, In id ids -> f id = Some name -> P id name) ->
  Forall2 P ids l.
Proof.
  revert l; induction ids as [|id t IH]; intros [|name u] Hm HP; simpl in Hm;
    try discriminate; constructor.
  - apply HP; [now left | congruence].
  - apply IH; [congruence|]. intros id' name' Hin. apply HP. now right.
Qed.

(** X9.  When no row of the names file has a missing name, a directors or
    writers cell that is not blank resolves to names joined by a comma
    and a blank, one per id of the cell and in the same order: the name
    of a row of the file about that id when there is one, the id itself
    when the file has no row about it. *)
Theorem resolved_cell_names :
  forall (rows : list Features.movie_row) (chunks : list (list name_row))
         (r : Features.movie_row) (cell : string),
    (forall chunk row, In chunk chunks -> In row chunk -> primaryName row <> None) ->
    In r rows ->
    Features.directors r = Some cell \/ Features.writers r = Some cell ->
    strip cell <> EmptyString ->
    exists names,
      resolve_names (name_lookup rows chunks) (Some cell)
        = Returns (join ", "%string names) /\
      Forall2
        (fun id name =>
           (exists chunk row, In chunk chunks /\ In row chunk /\
                              nconst row = Some id /\ primaryName row = Some name) \/
           ((forall chunk, In chunk chunks -> ~ names_id chunk id) /\ name = id))
        (cell_ids cell) names.
Proof.
  intros rows chunks r cell Hfile Hr Hcell Hne.
  set (L := name_lookup rows chunks).
  assert (Hall : Forall (fun c => c <> None) (map (get_name L) (cell_ids cell))).
  { apply Forall_forall. intros c Hc E. subst c.
    apply in_map_iff in Hc as (id & Hg & _). unfold get_name in Hg.
    destruct (dict_get id L) as [v|] eqn:Hd; [|discriminate]. subst v.
    apply lookup_entry_in_file in Hd as (chunk & row & Hc & Hrow & _ & Hv).
    now elim (Hfile chunk row Hc Hrow). }
  destruct (all_str_total Hall) as [names Hnames].
  exists names. split.
  - unfold resolve_names.
    destruct (String.eqb (strip cell) EmptyString) eqn:E;
      [apply String.eqb_eq in E; contradiction|].
    fold L. now rewrite Hnames.
  - apply all_str_Some in Hnames.
    apply (@map_Some_Forall2 _ (get_name L) _ (cell_ids cell) names Hnames).
    intros id name Hid Hg.
    assert (Hneeded : In id (needed_ids rows)).
    { apply needed_ids_In. now exists r, cell. }
    unfold get_name in Hg. destruct (dict_get id L) as [v|] eqn:Hd.
    + subst v. left.
      apply lookup_entry_in_file in Hd as (chunk & row & Hc & Hrow & Hk & Hv).
      now exists chunk, row.
    + injection Hg as <-. right. split; [|reflexivity].
      intros chunk Hc Hid'.
      destruct (@lookup_covers_file rows chunks id Hneeded) as [v Hv];
        [now exists chunk|].
      fold L in Hv. congruence.
Qed.

Lemma resolved_cell_names_witness :
  strip "nm2, nm3"%string <> EmptyString /\
  exists names,
    resolve_names (name_lookup sample_movies sample_chunks) (Some "nm2, nm3"%string)
      = Returns (join ", "%string names) /\
    Forall2
      (fun id name =>
         (exists chunk row, In chunk sample_chunks /\ In row chunk /\
                            nconst row = Some id /\ primaryName row = Some name) \/
         ((forall chunk, In chunk sample_chunks -> ~ names_id chunk id) /\ name = id))
      (cell_ids "nm2, nm3"%string) names.
Proof.
  assert (H1 : strip "nm2, nm3"%string <> EmptyString) by (vm_compute; discriminate).
  split; [exact H1|].
  apply (@resolved_cell_names sample_movies sample_chunks
           (nth 0 sample_movies
                {| Features.directors := None; Features.writers := None;
                   Features.genres := None; Features.startYear := None;
                   Features.tags := None; Features.runtimeMinutes := None;
                   Features.averageRating := None |})
           "nm2, nm3"%string sample_chunks_named);
    [now left | now right | exact H1].
Defined.

(** ** The shape of the ids *)

Lemma lstrip_clean (s : string) : starts_clean (lstrip s).
Proof.
  induction s as [|c rest IH]; simpl; [exact I|].
  destruct (is_space c) eqn:E; [exact IH | exact E].
Qed.

Lemma lstrip_id (s : string) : starts_clean s -> lstrip s = s.
Proof. destruct s as [|c rest]; simpl; [reflexivity|]. now intros ->. Qed.

Lemma rstrip_starts_clean (s : string) : starts_clean s -> starts_clean (rstrip s).
Proof.
  destruct s as [|c rest]; simpl; [exact (fun H => H)|]. intros Hc.
  destruct (rstrip rest); [rewrite Hc|]; exact Hc.
Qed.

Lemma rstrip_idem (s : string) : rstrip (rstrip s) = rstrip s.
Proof.
  induction s as [|c rest IH]; simpl; [reflexivity|].
  destruct (rstrip rest) as [|c' r'] eqn:E.
  - destruct (is_space c) eqn:Hc; simpl; [reflexivity|]. now rewrite Hc.
  - change (rstrip (String c (String c' r'))) with
      (match rstrip (String c' r') with
       | EmptyString => if is_space c then EmptyString else String c EmptyString
       | String c'' r'' => String c (String c'' r'')
       end).
    now rewrite IH.
Qed.

Lemma strip_idem (s : string) : strip (strip s) = strip s.
Proof.
  unfold strip.
  rewrite (lstrip_id (rstrip (lstrip s)))
    by (apply rstrip_starts_clean, lstrip_clean).
  apply rstrip_idem.
Qed.

Lemma lstrip_contains (c : ascii) (s : string) :
  contains c s = false -> contains c (lstrip s) = false.
Proof.
  induction s as [|c' rest IH]; simpl; [reflexivity|].
  intros H. apply orb_false_iff in H as [H1 H2].
  destruct (is_space c'); [now apply IH | simpl; now rewrite H1, H2].
Qed.

Lemma rstrip_contains (c : ascii) (s : string) :
  contains c s = false -> contains c (rstrip s) = false.
Proof.
  induction s as [|c' rest IH]; simpl; [reflexivity|].
  intros H. apply orb_false_iff in H as [H1 H2]. specialize (IH H2).
  destruct (rstrip rest) as [|c'' r''].
  - destruct (is_space c'); simpl; [reflexivity | now rewrite H1].
  - simpl in *. now rewrite H1, IH.
Qed.

Lemma split_contains (sep : ascii) (s p : string) :
  In p (split sep s) -> contains sep p = false.
Proof.
  revert p; induction s as [|c rest IH]; intros p; simpl.
  - intros [<-|[]]. reflexivity.
  - destruct (Ascii.eqb c sep) eqn:E.
    + intros [<-|H]; [reflexivity | now apply IH].
    + destruct (split sep rest) as [|q qs].
      * intros [<-|[]]. simpl. now rewrite E.
      * intros [<-|H].
        -- simpl. rewrite E. apply IH. now left.
        -- apply IH. now right.
Qed.

Lemma cell_ids_shape (s id : string) :
  In id (cell_ids s) -> strip id = id /\ contains ","%char id = false.
Proof.
  unfold cell_ids. intros H. apply in_map_iff in H as (p & <- & Hp). split.
  - apply strip_idem.
  - unfold strip. apply rstrip_contains, lstrip_contains.
    exact (split_contains _ _ _ Hp).
Qed.

(** X14.  Every needed id, and so every key of the lookup, is trimmed and
    holds no comma: stripping it again changes nothing. *)
Theorem needed_ids_trimmed :
  forall (rows : list Features.movie_row) (chunks : list (list name_row)) (id : string),
    In id (needed_ids rows) \/ In id (map fst (name_lookup rows chunks)) ->
    strip id = id /\ contains ","%char id = false.
Proof.
  intros rows chunks id H.
  assert (Hn : In id (needed_ids rows)).
  { destruct H as [H|H]; [exact H|]. unfold name_lookup in H.
    destruct (@build_keys (needed_ids rows) chunks []) as [_ Hincl];
      [constructor | intros k [] |].
    now apply Hincl. }
  apply needed_ids_In in Hn as (r & cell & _ & _ & Hid).
  exact (cell_ids_shape _ _ Hid).
Qed.

Lemma needed_ids_trimmed_witness :
  (In "nm3"%string (needed_ids sample_movies) \/
   In "nm3"%string (map fst (name_lookup sample_movies sample_chunks))) /\
  strip "nm3"%string = "nm3"%string /\ contains ","%char "nm3"%string = false.
Proof.
  assert (H : In "nm3"%string (needed_ids sample_movies) \/
              In "nm3"%string (map fst (name_lookup sample_movies sample_chunks)))
    by (left; vm_compute; right; right; now left).
  split; [exact H|].
  exact (@needed_ids_trimmed sample_movies sample_chunks _ H).
Defined.

(** X15.  When the names file has a single row about a needed id, the
    lookup maps the id to the name of that row, wherever in the file the
    row is. *)
Theorem name_lookup_unique_row :
  forall (rows : list Features.movie_row) (chunks : list (list name_row))
         (k : string) (chunk : list name_row) (row : name_row),
    In k (needed_ids rows) ->
    In chunk chunks -> In row chunk -> nconst row = Some k ->
    (forall chunk' row', In chunk' chunks -> In row' chunk' ->
                         nconst row' = Some k -> row' = row) ->
    dict_get k (name_lookup rows chunks) = Some (primaryName row).
Proof.
  intros rows chunks k chunk row Hk Hc Hr Hn Huniq.
  destruct (@lookup_covers_file rows chunks k Hk) as [v Hv].
  { exists chunk. split; [exact Hc|]. now exists row. }
  rewrite Hv. f_equal.
  apply lookup_entry_in_file in Hv as (chunk' & row' & Hc' & Hr' & Hn' & <-).
  now rewrite (Huniq chunk' row' Hc' Hr' Hn').
Qed.

Lemma name_lookup_unique_row_witness :
  dict_get "nm1"%string (name_lookup sample_movies sample_chunks)
    = Some (Some "Ann Lee"%string).
Proof.
  assert (Hk : In "nm1"%string (needed_ids sample_movies))
    by (vm_compute; now left).
  apply (@name_lookup_unique_row sample_movies sample_chunks "nm1"%string
           (nth 0 sample_chunks [])
           {| nconst := Some "nm1"%string; primaryName := Some "Ann Lee"%string |} Hk).
  - now left.
  - now left.
  - reflexivity.
  - intros chunk' row' Hc' Hr' Hn'. unfold sample_chunks in Hc'. simpl in Hc'.
    repeat (destruct Hc' as [<-|Hc'];
            [simpl in Hr'; repeat (destruct Hr' as [<-|Hr']; try discriminate;
                                   try reflexivity); contradiction|]).
    contradiction.
Defined.

End NamesFacts.


(** * More on the Neighbor Lists and on the loop's failures *)

Lemma nth_error_map_Some (A B : Type) (f : A -> B) (l : list A) (n : nat) (b : B) :
  nth_error (map f l) n = Some b -> exists a, nth_error l n = Some a /\ b = f a.
Proof.
  rewrite nth_error_map. destruct (nth_error l n) as [a|]; [|discriminate].
  intros E. injection E as <-. now exists a.
Qed.

(** X10.  The indices of a Neighbor List are positions of the matrix, and
    no index occurs twice. *)
Theorem neighbor_indices_valid_distinct :
  forall (F : Type) (PF : PyFloat F) (NP : @Numpy F PF) (row : Type)
         (cos : row -> row -> F) (K B : nat) (X : list row)
         (tbl : table) (i : nat) (out : list (nat * F)),
    similarity_loop cos K B X = Ok tbl ->
    nth_error tbl i = Some (Some out) ->
    NoDup (map fst out) /\ Forall (fun e => fst e < length X) out.
Proof.
  intros F PF NP row cos K B X tbl i out Hrun Hc.
  destruct (@cell_selection F PF NP row cos K B X tbl i out Hrun Hc)
    as (x & top & _ & _ & Hsel & Hf).
  assert (Hfst : map fst out = top).
  { eapply Forall2_map_fst; [|exact Hf]. now intros a e (s & _ & ->). }
  split; [rewrite Hfst; exact (sel_nodup Hsel)|].
  pose proof (sel_range Hsel) as R. rewrite length_map, <- Hfst in R.
  apply Forall_map in R. eapply Forall_impl; [|exact R]. now intros e [He _].
Qed.

Lemma neighbor_indices_valid_distinct_witness :
  similarity_loop (NP := ref_numpy Q_float) Qdot 2 500 four_rows = Ok four_rows_table /\
  nth_error four_rows_table 3 = Some (Some [(2, 0.8000%Q); (1, 0.8000%Q)]) /\
  NoDup (map fst [(2, 0.8000%Q); (1, 0.8000%Q)]) /\
  Forall (fun e : nat * Q => fst e < length four_rows) [(2, 0.8000%Q); (1, 0.8000%Q)].
Proof.
  split; [exact four_rows_run|]. split; [reflexivity|].
  exact (@neighbor_indices_valid_distinct Q Q_float (ref_numpy Q_float) (list Q) Qdot
           2 500 four_rows four_rows_table 3 _ four_rows_run eq_refl).
Defined.

(** X11.  A Neighbor List holds the best: an entry other than the row's
    own that is left out of the list is never more similar to the row
    than an entry that is in it. *)
Theorem neighbor_list_is_top :
  forall (F : Type) (PF : PyFloat F) (NP : @Numpy F PF) (row : Type)
         (cos : row -> row -> F) (K B : nat) (X : list row)
         (tbl : table) (i j : nat) (out : list (nat * F)) (x xj : row),
    similarity_loop cos K B X = Ok tbl ->
    nth_error tbl i = Some (Some out) ->
    nth_error X i = Some x ->
    nth_error X j = Some xj ->
    j <> i ->
    ~ In j (map fst out) ->
    Forall (fun e => exists xe, nth_error X (fst e) = Some xe /\
                                fle (cos x xj) (cos x xe) = true) out.
Proof.
  intros F PF NP row cos K B X tbl i j out x xj Hrun Hc Hx Hxj Hji Hout.
  destruct (@cell_selection F PF NP row cos K B X tbl i out Hrun Hc)
    as (x' & top & Hx' & _ & Hsel & Hf).
  rewrite Hx in Hx'. injection Hx' as <-.
  assert (Hfst : map fst out = top).
  { eapply Forall2_map_fst; [|exact Hf]. now intros a e (s & _ & ->). }
  assert (Hj : j < length (map (cos x) X)).
  { rewrite length_map. apply nth_error_Some. congruence. }
  rewrite Hfst in Hout.
  pose proof (sel_dominates Hsel Hj Hji Hout) as D.
  rewrite <- Hfst in D. rewrite Forall_forall in D.
  apply Forall_forall. intros e He.
  destruct (D (fst e) (in_map fst _ _ He)) as (a & b & Ha & Hb & Hab).
  apply nth_error_map_Some in Ha as (xj' & Hxj' & ->).
  apply nth_error_map_Some in Hb as (xe & Hxe & ->).
  exists xe. split; [exact Hxe|]. congruence.
Qed.

Lemma neighbor_list_is_top_witness :
  similarity_loop (NP := ref_numpy Q_float) Qdot 2 500 four_rows = Ok four_rows_table /\
  nth_error four_rows_table 1 = Some (Some [(2, 1.0000%Q); (3, 0.8000%Q)]) /\
  0 <> 1 /\ ~ In 0 (map fst [(2, 1.0000%Q); (3, 0.8000%Q)]) /\
  Forall (fun e : nat * Q =>
            exists xe, nth_error four_rows (fst e) = Some xe /\
                       fle (Qdot [3 # 5; 4 # 5]%Q [1; 0]%Q) (Qdot [3 # 5; 4 # 5]%Q xe) = true)
         [(2, 1.0000%Q); (3, 0.8000%Q)].
Proof.
  assert (Hn : ~ In 0 (map fst [(2, 1.0000%Q); (3, 0.8000%Q)]))
    by (simpl; intros [H|[H|[]]]; discriminate).
  split; [exact four_rows_run|]. split; [reflexivity|].
  split; [discriminate|]. split; [exact Hn|].
  apply (@neighbor_list_is_top Q Q_float (ref_numpy Q_float) (list Q) Qdot
           2 500 four_rows four_rows_table 1 0 _ _ _ four_rows_run eq_refl
           eq_refl eq_refl); [discriminate | exact Hn].
Defined.

(** X12.  The score written beside index [idx] in the list of row [i] is
    the similarity of rows [i] and [idx], rounded to four decimals. *)
Theorem neighbor_score_is_rounded_similarity :
  forall (F : Type) (PF : PyFloat F) (NP : @Numpy F PF) (row : Type)
         (cos : row -> row -> F) (K B : nat) (X : list row)
         (tbl : table) (i : nat) (out : list (nat * F)) (idx : nat) (s : F),
    similarity_loop cos K B X = Ok tbl ->
    nth_error tbl i = Some (Some out) ->
    In (idx, s) out ->
    exists x y, nth_error X i = Some x /\ nth_error X idx = Some y /\
                s = round4 (cos x y).
Proof.
  intros F PF NP row cos K B X tbl i out idx s Hrun Hc Hin.
  destruct (@cell_selection F PF NP row cos K B X tbl i out Hrun Hc)
    as (x & top & Hx & _ & _ & Hf).
  apply In_nth_error in Hin as (q & Hq).
  destruct (Forall2_nth_error_r _ Hf Hq) as (a & _ & s' & Hs' & E).
  injection E as -> ->.
  apply nth_error_map_Some in Hs' as (y & Hy & ->).
  now exists x, y.
Qed.

Lemma neighbor_score_is_rounded_similarity_witness :
  similarity_loop (NP := ref_numpy Q_float) Qdot 2 500 four_rows = Ok four_rows_table /\
  nth_error four_rows_table 0 = Some (Some [(2, 0.6000%Q); (1, 0.6000%Q)]) /\
  In (1, 0.6000%Q) [(2, 0.6000%Q); (1, 0.6000%Q)] /\
  exists x y, nth_error four_rows 0 = Some x /\ nth_error four_rows 1 = Some y /\
              0.6000%Q = round4 (Qdot x y).
Proof.
  split; [exact four_rows_run|]. split; [reflexivity|].
  split; [right; now left|].
  apply (@neighbor_score_is_rounded_similarity Q Q_float (ref_numpy Q_float) (list Q)
           Qdot 2 500 four_rows four_rows_table 0 _ 1 _ four_rows_run eq_refl).
  right. now left.
Defined.

(** X13.  With a positive batch size the loop fails exactly when the
    matrix has at least one row and at most [K] of them, and it never
    fails otherwise than with the [ValueError] of [np.argpartition]: no
    index is ever out of range. *)
Theorem loop_raises_iff :
  forall (F : Type) (PF : PyFloat F) (NP : @Numpy F PF) (row : Type)
         (cos : row -> row -> F) (K B : nat) (X : list row),
    0 < B ->
    ((exists e, similarity_loop cos K B X = Raise e) <->
     0 < length X /\ length X <= K) /\
    (forall e, similarity_loop cos K B X = Raise e -> e = ValueError).
Proof.
  intros F PF NP row cos K B X HB.
  destruct (Nat.le_gt_cases (K + 1) (length X)) as [HK|HK].
  - destruct (@loop_finishes F PF NP row cos K B X HB HK) as (tbl & Hrun & _).
    rewrite Hrun. split; [split|]; [intros (e & E); discriminate | lia | discriminate].
  - destruct (length X) as [|n] eqn:HN.
    + rewrite loop_rows_in_order by exact HB. unfold rows_in_order. rewrite HN. simpl.
      split; [split|]; [intros (e & E); discriminate | lia | discriminate].
    + rewrite (@loop_raises F PF NP row cos K B X HB) by lia.
      split; [split|]; [lia | now exists ValueError | congruence].
Qed.

Lemma loop_raises_iff_witness :
  0 < 500 /\
  ((exists e, similarity_loop (NP := ref_numpy Q_float) Qdot 10 500 five_rows = Raise e) <->
   0 < length five_rows /\ length five_rows <= 10) /\
  (forall e, similarity_loop (NP := ref_numpy Q_float) Qdot 10 500 five_rows = Raise e ->
             e = ValueError).
Proof.
  split; [lia|].
  apply (@loop_raises_iff Q Q_float (ref_numpy Q_float) (list Q) Qdot 10 500 five_rows).
  lia.
Defined.

(** * The range of the emitted scores *)

Module BoundFacts.

Import Tfidf TfidfFacts.

Open Scope R_scope.

Lemma sumsq_eq_0 (r : list R) : sumsq r = 0 -> Forall (fun w => w = 0) r.
Proof.
  induction r as [|x t IH]; simpl; intros E; [constructor|].
  pose proof (sumsq_nonneg t) as Ht. pose proof (Rle_0_sqr x) as Hx. unfold Rsqr in Hx.
  constructor.
  - assert (Hxx : x * x = 0) by Lra.lra.
    apply Rmult_integral in Hxx. now destruct Hxx.
  - apply IH. Lra.lra.
Qed.

Lemma sumsq_normalize_le_1 (r : list R) : sumsq (normalize r) <= 1.
Proof.
  destruct (Req_dec_T (sumsq r) 0) as [E|NE].
  - rewrite (sumsq_zeros (normalize_zero (sumsq_eq_0 r E))). Lra.lra.
  - pose proof (normalize_unit r NE) as Hu. unfold l2norm in Hu.
    rewrite <- (sqrt_sqrt (sumsq (normalize r))) by apply sumsq_nonneg.
    rewrite Hu. Lra.lra.
Qed.

Lemma normalize_nonneg (r : list R) :
  Forall (fun w => 0 <= w) r -> Forall (fun w => 0 <= w) (normalize r).
Proof.
  intros Hr. unfold normalize. apply Forall_map.
  assert (Hn : 0 < (if Req_dec_T (l2norm r) 0 then 1 else l2norm r)).
  { destruct (Req_dec_T (l2norm r) 0) as [_|NE]; [Lra.lra|].
    pose proof (sqrt_pos (sumsq r)) as Hp. unfold l2norm in *. Lra.lra. }
  eapply Forall_impl; [|exact Hr]. intros w Hw. cbv beta.
  apply Rmult_le_pos; [exact Hw|]. left. now apply Rinv_0_lt_compat.
Qed.

Lemma dot_nonneg (x y : list R) :
  Forall (fun w => 0 <= w) x -> Forall (fun w => 0 <= w) y -> 0 <= dot x y.
Proof.
  intros Hx; revert y; induction Hx as [|a t Ha _ IH]; intros y Hy.
  - unfold dot. simpl. Lra.lra.
  - destruct Hy as [|b u Hb Hu]; [unfold dot; simpl; Lra.lra|].
    specialize (IH u Hu). unfold dot in *. simpl.
    pose proof (Rmult_le_pos a b Ha Hb). Lra.lra.
Qed.

(** Twice a dot product is at most the two squared norms together. *)
Lemma dot_le_half (x y : list R) : 2 * dot x y <= sumsq x + sumsq y.
Proof.
  revert y; induction x as [|a t IH]; intros y.
  - unfold dot. simpl. pose proof (sumsq_nonneg y). Lra.lra.
  - destruct y as [|b u].
    + unfold dot. simpl. pose proof (sumsq_nonneg (a :: t)) as H. simpl in H. Lra.lra.
    + specialize (IH u). unfold dot in *. simpl.
      pose proof (Rle_0_sqr (a - b)) as Hs. unfold Rsqr in Hs. Lra.lra.
Qed.

Lemma cosine_unit (x y : list R) :
  Forall (fun w => 0 <= w) x -> Forall (fun w => 0 <= w) y ->
  0 <= cosine x y <= 1.
Proof.
  intros Hx Hy. unfold cosine. split.
  - apply dot_nonneg; now apply normalize_nonneg.
  - pose proof (dot_le_half (normalize x) (normalize y)) as Hd.
    pose proof (sumsq_normalize_le_1 x). pose proof (sumsq_normalize_le_1 y). Lra.lra.
Qed.

Lemma weights_nonneg (tokenize : string -> list string) (stop_words : list string)
    (docs : list string) (d : string) :
  Forall (fun w => 0 <= w) (weights tokenize stop_words docs d).
Proof.
  unfold weights. apply Forall_map, Forall_forall. intros t _.
  apply Rmult_le_pos; [apply pos_INR|].
  pose proof (idf_ge_1 tokenize stop_words t docs). Lra.lra.
Qed.

(** A value nearer to the integer [z] than one half rounds to [z] from
    either side. *)
Lemma Rrne_lower (y : R) (z : Z) : IZR z - 1 / 2 < y -> (z <= Rrne y)%Z.
Proof.
  intros Hy. pose proof (Zfloor_bound y) as [Hlo Hhi].
  assert (Hf : (z - 1 <= Zfloor y)%Z).
  { apply Zfloor_lub. rewrite minus_IZR. Lra.lra. }
  pose proof (Rrne_bounds y) as [Hb _].
  destruct (Z.eq_dec (Zfloor y) (z - 1)) as [E|NE]; [|lia].
  unfold Rrne. rewrite E, minus_IZR.
  destruct (Rlt_dec (y - (IZR z - 1)) (1 / 2)) as [H|_]; [exfalso; Lra.lra|].
  destruct (Rlt_dec (1 / 2) (y - (IZR z - 1))) as [_|H]; [lia | exfalso; Lra.lra].
Qed.

Lemma Rrne_upper (y : R) (z : Z) : y < IZR z + 1 / 2 -> (Rrne y <= z)%Z.
Proof.
  intros Hy. pose proof (Zfloor_bound y) as [Hlo Hhi].
  assert (Hf : (Zfloor y <= z)%Z).
  { apply Z.lt_succ_r, lt_IZR. rewrite succ_IZR. Lra.lra. }
  pose proof (Rrne_bounds y) as [_ Hb].
  destruct (Z.eq_dec (Zfloor y) z) as [E|NE]; [|lia].
  unfold Rrne. rewrite E.
  destruct (Rlt_dec (y - IZR z) (1 / 2)) as [_|H]; [lia | exfalso; Lra.lra].
Qed.

Lemma Rround4_unit (y : R) :
  - (1 / 20000) < y < 1 + 1 / 20000 -> 0 <= Rround4 y <= 1.
Proof.
  intros [Hlo Hhi]. unfold Rround4.
  assert (H0 : (0 <= Rrne (y * 10000))%Z) by (apply Rrne_lower; simpl; Lra.lra).
  assert (H1 : (Rrne (y * 10000) <= 10000)%Z) by (apply Rrne_upper; Lra.lra).
  apply IZR_le in H0, H1. Lra.lra.
Qed.

(** C3.  Every score emitted in any Neighbor List of a run lies in
    [0, 1].  The emitted score is the similarity of the two rows rounded
    to four decimals; the rows are non-negative and normalised, so the
    similarity lies in [0, 1], and the rounding keeps it there.  An
    overshoot of the similarity by less than half a unit of the fourth
    decimal is still emitted inside [0, 1]. *)
Theorem emitted_scores_in_unit_interval :
  forall (tokenize : string -> list string) (stop_words : list string)
         (NP : @Numpy R R_float) (K B : nat) (docs : list string)
         (tbl : list (option (list (nat * R)))) (i : nat)
         (out : list (nat * R)) (idx : nat) (s : R),
    precompute tokenize stop_words K B docs = Ok tbl ->
    nth_error tbl i = Some (Some out) ->
    In (idx, s) out ->
    0 <= s <= 1 /\
    exists M x y,
      fit_transform tokenize stop_words docs = Ok M /\
      nth_error M i = Some x /\ nth_error M idx = Some y /\
      s = Rround4 (cosine x y) /\
      0 <= cosine x y <= 1 /\
      forall eps, Rabs eps < 1 / 20000 -> 0 <= Rround4 (cosine x y + eps) <= 1.
Proof.
  intros tokenize stop_words NP K B docs tbl i out idx s Hrun Hc Hin.
  unfold precompute in Hrun.
  destruct (fit_transform tokenize stop_words docs) as [M|e] eqn:HM; [|discriminate].
  simpl in Hrun.
  pose proof (fit_transform_inv _ _ _ HM) as EM.
  assert (Hrows : forall n r, nth_error M n = Some r -> Forall (fun w => 0 <= w) r).
  { intros n r Hr. apply nth_error_In in Hr. rewrite EM in Hr.
    apply in_map_iff in Hr as (d & <- & _).
    apply normalize_nonneg, weights_nonneg. }
  destruct (@cell_selection R R_float NP (list R) cosine K B M tbl i out Hrun Hc)
    as (x & top & Hx & _ & _ & Hf).
  apply In_nth_error in Hin as (q & Hq).
  destruct (Forall2_nth_error_r _ Hf Hq) as (a & _ & s' & Hs' & E).
  injection E as -> ->.
  apply nth_error_map_Some in Hs' as (y & Hy & ->).
  pose proof (cosine_unit (Hrows _ _ Hx) (Hrows _ _ Hy)) as Hcos.
  change (round4 (cosine x y)) with (Rround4 (cosine x y)).
  split; [apply Rround4_unit; Lra.lra|].
  exists M, x, y. split; [reflexivity|]. split; [exact Hx|]. split; [exact Hy|].
  split; [reflexivity|]. split; [exact Hcos|].
  intros eps Heps. apply Rabs_def2 in Heps. apply Rround4_unit. Lra.lra.
Qed.

Lemma emitted_scores_in_unit_interval_witness :
  exists tbl out idx s,
    precompute (NP := ref_numpy R_float) split_blanks [] 2 500 three_docs = Ok tbl /\
    nth_error tbl 0%nat = Some (Some out) /\
    In (idx, s) out /\
    0 <= s <= 1.
Proof.
  assert (Hv : vocabulary split_blanks [] three_docs <> []) by (vm_compute; discriminate).
  pose proof (@fit_transform_Ok split_blanks [] three_docs Hv) as HM.
  set (M := map (fun d => normalize (weights split_blanks [] three_docs d)) three_docs)
    in HM.
  assert (HlenM : length M = 3%nat) by reflexivity.
  destruct (@loop_finishes R R_float (ref_numpy R_float) (list R) cosine 2 500 M)
    as (tbl & Hrun & Hlen); [lia | lia |].
  assert (Hpre : precompute (NP := ref_numpy R_float) split_blanks [] 2 500 three_docs
                 = Ok tbl).
  { unfold precompute. rewrite HM. exact Hrun. }
  destruct (nth_error tbl 0) as [c|] eqn:Hc; [|apply nth_error_None in Hc; lia].
  destruct (@loop_cell R R_float (ref_numpy R_float) (list R) cosine 2 500 M tbl 0 c
              Hrun Hc) as (x & out & -> & _ & Hout & _).
  destruct (@top_similar_Ok R R_float (ref_numpy R_float) 2 _ 0 out Hout)
    as (_ & top & Hsel & Hf).
  pose proof (Forall2_length Hf) as Hl. rewrite (sel_length Hsel) in Hl.
  destruct out as [|[idx s] rest]; [discriminate|].
  exists tbl, ((idx, s) :: rest), idx, s.
  split; [exact Hpre|]. split; [exact Hc|]. split; [now left|].
  exact (proj1 (@emitted_scores_in_unit_interval split_blanks [] (ref_numpy R_float)
                  2 500 three_docs tbl 0 _ idx s Hpre Hc (or_introl eq_refl))).
Defined.

End BoundFacts.
